(** * A shallow embedding of [pymnet/net.py]

    The module [pymnet.net] stores multilayer networks.  [MultilayerNetwork]
    is the general, tensor-indexed store (a dict of dicts from node tuples to
    neighbour tuples to weights) and [MultiplexNetwork] keeps one
    aspect-0 [MultilayerNetworkWithParent] per layer combination and derives
    the coupling (inter-layer) edges from a policy per aspect.

    Modelling choices:
    - Python labels are hashable objects; the ones the code meets are ints
      and strings, so a [Label] is [LInt z] or [LStr s].  Tuples of labels
      (node coordinates, links, layer combinations) are [list Label].
    - weights and the [noEdge] sentinel are integers ([Z]).
    - a Python [set] is a [gset], a [dict] is a [gmap]; iteration over a set
      or dict is over [elements] / [map_to_list], in some fixed order that no
      theorem depends on.
    - a raised exception is an [Err]; code that mutates state and may raise
      runs in [St S A = S -> S * Res A], so the mutations done before a raise
      persist, as they do in Python.
    - generators are evaluated to the whole list they yield (or the error
      they raise). *)

From Stdlib Require Import ZArith Lia.
From stdpp Require Import base gmap sets list strings countable pretty.

Open Scope Z_scope.

(** ** Labels, errors and the two monads *)

Inductive Label : Type :=
| LInt (z : Z)
| LStr (s : string).

#[global] Instance Label_eq_dec : EqDecision Label.
Proof. solve_decision. Defined.

#[global] Instance Label_countable : Countable Label.
Proof.
  refine (inj_countable'
            (fun l => match l with LInt z => inl z | LStr s => inr s end)
            (fun x => match x with inl z => LInt z | inr s => LStr s end) _).
  by intros [].
Defined.

(** The exceptions the code raises.  [KeyError msg] is an explicit
    [raise KeyError(msg)] or a failed dict lookup ([msg = "missing"]);
    [TypeError] is [label + 1] on a string label or a call of
    [NotImplemented()]; [CouplingError] is
    [raise Exception("Coupling not implemented: ...")] and the bare
    [raise Exception()] of [_get_dim_strength]; [NotAWeight] is a coupling
    network whose [__getitem__] on a 2-tuple does not return a weight. *)
Inductive Err : Type :=
| KeyError (msg : string)
| IndexError
| TypeError
| AssertionError
| CouplingError
| NotAWeight.

Definition Res (A : Type) : Type := (Err + A)%type.

Definition bindR {A B} (m : Res A) (k : A -> Res B) : Res B :=
  match m with inl e => inl e | inr a => k a end.

Notation "'let?' x ':=' m 'in' k" := (bindR m (fun x => k))
  (at level 200, x binder, right associativity).

Definition missing : Err := KeyError "missing".

(** [d[k]] on a dict. *)
Definition lookupR {K V} `{Countable K} (k : K) (m : gmap K V) : Res V :=
  match m !! k with Some v => inr v | None => inl missing end.

(** [t[i]] on a tuple or list. *)
Definition nthR {A} (l : list A) (i : nat) : Res A :=
  match l !! i with Some v => inr v | None => inl IndexError end.

Fixpoint mapR {A B} (f : A -> Res B) (l : list A) : Res (list B) :=
  match l with
  | [] => inr []
  | x :: t => let? y := f x in let? ys := mapR f t in inr (y :: ys)
  end.

Fixpoint concatR {A} (l : list (Res (list A))) : Res (list A) :=
  match l with
  | [] => inr []
  | r :: t => let? xs := r in let? ys := concatR t in inr (xs ++ ys)
  end.

Definition St (S A : Type) : Type := S -> S * Res A.

Definition retS {S A} (a : A) : St S A := fun s => (s, inr a).
Definition raiseS {S A} (e : Err) : St S A := fun s => (s, inl e).
Definition liftS {S A} (r : Res A) : St S A := fun s => (s, r).
Definition getS {S} : St S S := fun s => (s, inr s).
Definition putS {S} (s : S) : St S unit := fun _ => (s, inr tt).

Definition bindS {S A B} (m : St S A) (k : A -> St S B) : St S B :=
  fun s => let '(s', r) := m s in
           match r with inl e => (s', inl e) | inr a => k a s' end.

Notation "'do!' x '<-' m 'in' k" := (bindS m (fun x => k))
  (at level 200, x binder, right associativity).

(** [for x in l: body(x)] *)
Fixpoint forS {S A} (l : list A) (body : A -> St S unit) : St S unit :=
  match l with
  | [] => retS tt
  | x :: t => do! _ <- body x in forS t body
  end.

(** [itertools.product over ls] *)
Fixpoint cart_prod {A} (ls : list (list A)) : list (list A) :=
  match ls with
  | [] => [[]]
  | l :: ls' => flat_map (fun x => map (cons x) (cart_prod ls')) l
  end.

(** [l[k::2]] for [k = 0]: the elements at even positions. *)
Fixpoint evens {A} (l : list A) : list A :=
  match l with
  | x :: _ :: t => x :: evens t
  | [x] => [x]
  | [] => []
  end.

(** ** Addressing *)

(** [_link_to_nodes]: [(link[0],)+link[2::2], (link[1],)+link[3::2]]. *)
Definition link_to_nodes (link : list Label) : Res (list Label * list Label) :=
  match link with
  | i :: j :: rest => inr (i :: evens rest, j :: evens (tail rest))
  | _ => inl IndexError
  end.

Fixpoint interleave (n1 n2 : list Label) : list Label :=
  match n1, n2 with
  | a :: t1, b :: t2 => a :: b :: interleave t1 t2
  | _, _ => []
  end.

(** [_nodes_to_link] (with its [assert len(node1)==len(node2)]). *)
Definition nodes_to_link (n1 n2 : list Label) : Res (list Label) :=
  if decide (length n1 = length n2) then inr (interleave n1 n2)
  else inl AssertionError.

(** [_short_link_to_link] *)
Definition short_link_to_link (slink : list Label) : list Label :=
  take 2 slink ++ flat_map (fun k => [k; k]) (drop 2 slink).

(** [x + 1] and [x - 1] on a label. *)
Definition label_plus (x : Label) (d : Z) : Res Label :=
  match x with LInt z => inr (LInt (z + d)) | LStr _ => inl TypeError end.

Definition bool_to_Z (b : bool) : Z := if b then 1 else 0.

Fixpoint filterR {A} (p : A -> Res bool) (l : list A) : Res (list A) :=
  match l with
  | [] => inr []
  | x :: t =>
      let? b := p x in
      let? ys := filterR p t in
      inr (if b then x :: ys else ys)
  end.

Definition sumZ (ws : list Z) : Z := foldr Z.add 0 ws.

(** ** Edge enumeration ([MultilayerNetwork.edges])

    [edges] is written once in [MultilayerNetwork] and inherited by
    [MultiplexNetwork]; it only calls [self[node]] (a node view, whose
    iteration is [_iter_neighbors(node, None)]) and [self[link]]
    ([_get_link]).  It is therefore embedded once, over those two
    operations. *)

(** Iterating [MultilayerNode(node, net)]: the neighbour tuples, or their
    first component when [aspects == 0]; [edges] then wraps the latter back
    into a 1-tuple ([neigh=(neigh,)]). *)
Definition view_neighbors (aspects : nat) (ns : list (list Label))
    : Res (list (list Label)) :=
  match aspects with
  | O => mapR (fun n => let? x := nthR n 0 in inr [x]) ns
  | _ => inr ns
  end.

Section Edges.
Variable aspects : nat.
Variable nbrs : list Label -> Res (list (list Label)).
Variable getl : list Label -> Res Z.

Definition emit (node : list Label) (neighs : list (list Label))
    : Res (list (list Label * Z)) :=
  mapR (fun neigh => let? l := nodes_to_link node neigh in
                     let? w := getl l in inr (l, w)) neighs.

Definition node_neighbors (node : list Label) : Res (list (list Label)) :=
  let? ns := nbrs node in view_neighbors aspects ns.

(** The directed branch: every neighbour of every node of the product. *)
Fixpoint edges_directed (nodes : list (list Label))
    : Res (list (list Label * Z)) :=
  match nodes with
  | [] => inr []
  | node :: rest =>
      let? ns := node_neighbors node in
      let? here := emit node ns in
      let? later := edges_directed rest in
      inr (here ++ later)
  end.

(** The undirected branch: a neighbour already in [iterated] is skipped,
    and [node] is added to [iterated] after its neighbours. *)
Fixpoint edges_undirected (nodes : list (list Label))
    (iterated : gset (list Label)) : Res (list (list Label * Z)) :=
  match nodes with
  | [] => inr []
  | node :: rest =>
      let? ns := node_neighbors node in
      let? here := emit node (filter (fun n => n ∉ iterated) ns) in
      let? later := edges_undirected rest ({[node]} ∪ iterated) in
      inr (here ++ later)
  end.

Definition edges_gen (directed : bool) (slices : list (gset Label))
    : Res (list (list Label * Z)) :=
  let nodes := cart_prod (map elements slices) in
  if directed then edges_directed nodes else edges_undirected nodes ∅.
End Edges.

(** ** The general store: [class MultilayerNetwork] *)

Module MultilayerNetwork.

Record t : Type := mk {
  aspects : nat;
  directed : bool;
  noEdge : Z;
  slices : list (gset Label);
  net : gmap (list Label) (gmap (list Label) Z)   (* self._net *)
}.

Definition set_slices (g : t) (sl : list (gset Label)) : t :=
  mk (aspects g) (directed g) (noEdge g) sl (net g).
Definition set_net (g : t) (n : gmap (list Label) (gmap (list Label) Z)) : t :=
  mk (aspects g) (directed g) (noEdge g) (slices g) n.

(** [__init__] with [_init_slices]: one empty set per aspect [0..aspects]. *)
Definition init (aspects : nat) (noEdge : Z) (directed : bool) : t :=
  mk aspects directed noEdge (replicate (S aspects) ∅) ∅.

(** [add_node]: [self.slices[aspect].add(node)]. *)
Definition add_node (node : Label) (aspect : nat) : St t unit :=
  fun g =>
    match slices g !! aspect with
    | Some s => (set_slices g (<[aspect := {[node]} ∪ s]> (slices g)), inr tt)
    | None => (g, inl IndexError)
    end.

Definition row (g : t) (n : list Label) : gmap (list Label) Z :=
  default ∅ (net g !! n).

(** [_get_link] *)
Definition get_link (g : t) (link : list Label) : Res Z :=
  let? p := link_to_nodes link in
  let '(node1, node2) := p in
  inr (match net g !! node1 with
       | Some m => match m !! node2 with Some w => w | None => noEdge g end
       | None => noEdge g
       end).

(** [_set_link].  Removing an undirected link runs
    [del self._net[node1][node2]] and then [del self._net[node2][node1]];
    the second [del] raises when the first already removed the entry. *)
Definition set_link (link : list Label) (value : Z) : St t unit :=
  fun g =>
    match link_to_nodes link with
    | inl e => (g, inl e)
    | inr (node1, node2) =>
      if decide (value = noEdge g) then
        match net g !! node1 with
        | Some m1 =>
          match m1 !! node2 with
          | Some _ =>
            let n1 := <[node1 := delete node2 m1]> (net g) in
            if directed g then (set_net g n1, inr tt)
            else
              match n1 !! node2 with
              | Some m2 =>
                match m2 !! node1 with
                | Some _ => (set_net g (<[node2 := delete node1 m2]> n1), inr tt)
                | None => (set_net g n1, inl missing)
                end
              | None => (set_net g n1, inl missing)
              end
          | None => (g, inr tt)
          end
        | None => (g, inr tt)
        end
      else
        let n1 := if decide (is_Some (net g !! node1)) then net g
                  else <[node1 := ∅]> (net g) in
        let n2 := if decide (is_Some (n1 !! node2)) then n1
                  else <[node2 := ∅]> n1 in
        let n3 := <[node1 := <[node2 := value]> (default ∅ (n2 !! node1))]> n2 in
        let n4 := if directed g then n3
                  else <[node2 := <[node1 := value]> (default ∅ (n3 !! node2))]> n3 in
        (set_net g n4, inr tt)
    end.

(** [__setitem__]: the link (or the expanded short link), then every
    component registered with [add_node], then [_set_link]. *)
Definition setitem (item : list Label) (val : Z) : St t unit :=
  do! g <- getS in
  let d := S (aspects g) in
  do! link <- liftS (if decide (length item = 2 * d)%nat then inr item
                     else if decide (length item = d + 1)%nat
                          then inr (short_link_to_link item)
                          else inl (KeyError "Invalid number of indices.")) in
  do! _ <- forS (seq 0 (2 * d))
             (fun i => do! l <- liftS (nthR link i) in add_node l (i / 2)) in
  set_link link val.

(** The [dims] test of [_iter_neighbors]:
    [all(map(lambda i: dims[i]==None or neigh[i]==dims[i], range(len(dims))))]. *)
Definition dims_match (dims : list (option Label)) (neigh : list Label) : Res bool :=
  let? bs := mapR (fun p : nat * option Label =>
                     match p.2 with
                     | None => inr true
                     | Some v => let? x := nthR neigh p.1 in inr (bool_decide (x = v))
                     end) (zip (seq 0 (length dims)) dims) in
  inr (forallb id bs).

(** [_iter_neighbors] *)
Definition iter_neighbors (g : t) (node : list Label)
    (dims : option (list (option Label))) : Res (list (list Label)) :=
  match net g !! node with
  | None => inr []
  | Some m =>
      let ks := map fst (map_to_list m) in
      match dims with
      | None => inr ks
      | Some ds => filterR (dims_match ds) ks
      end
  end.

(** [_get_degree] *)
Definition get_degree (g : t) (node : list Label)
    (dims : option (list (option Label))) : Res Z :=
  match dims with
  | None => inr (match net g !! node with
                 | Some m => Z.of_nat (size m)
                 | None => 0
                 end)
  | Some _ => let? ns := iter_neighbors g node dims in inr (Z.of_nat (length ns))
  end.

(** [_get_strength] *)
Definition get_strength (g : t) (node : list Label)
    (dims : option (list (option Label))) : Res Z :=
  let? ns := iter_neighbors g node dims in
  let? ws := mapR (fun n => let? l := nodes_to_link node n in get_link g l) ns in
  inr (sumZ ws).

(** [edges] *)
Definition edges (g : t) : Res (list (list Label * Z)) :=
  edges_gen (aspects g) (fun n => iter_neighbors g n None) (get_link g)
            (directed g) (slices g).

End MultilayerNetwork.

(** ** The multiplex store: [class MultiplexNetwork] *)

Module MultiplexNetwork.

Module ML := MultilayerNetwork.

(** An entry of [couplings]: a policy tuple [(type, weight)] (the types the
    code dispatches on are ["categorical"] and ["ordinal"]), or a coupling
    network, which [__init__] stores as the 1-tuple [(net,)]. *)
Inductive Coupling : Type :=
| Policy (kind : string) (w : Z)
| NetCoupling (g : ML.t).

(** The keys of [A] are layer combinations.  The code keys [A] by the bare
    label when [aspects == 1] and by the tuple otherwise, and converts with
    [_get_A_with_tuple] / [_has_layer_with_tuple]; here every key is the
    tuple.  The intra-layer stores are [MultilayerNetworkWithParent] objects;
    their [_name] (set when the store is not fully interconnected) is the
    tuple key they are stored under, so it is not kept separately. *)
Record t : Type := mk {
  aspects : nat;
  directed : bool;
  noEdge : Z;
  fullyInterconnected : bool;
  couplings : list Coupling;
  slices : list (gset Label);
  A : gmap (list Label) ML.t;
  nodeToLayers : gmap Label (gset (list Label))   (* self._nodeToLayers *)
}.

Definition set_slices (m : t) (sl : list (gset Label)) : t :=
  mk (aspects m) (directed m) (noEdge m) (fullyInterconnected m) (couplings m)
     sl (A m) (nodeToLayers m).
Definition set_A (m : t) (a : gmap (list Label) ML.t) : t :=
  mk (aspects m) (directed m) (noEdge m) (fullyInterconnected m) (couplings m)
     (slices m) a (nodeToLayers m).
Definition set_nodeToLayers (m : t) (n : gmap Label (gset (list Label))) : t :=
  mk (aspects m) (directed m) (noEdge m) (fullyInterconnected m) (couplings m)
     (slices m) (A m) n.

(** [__init__(couplings, directed, noEdge, fullyInterconnected)]:
    [aspects = len(couplings)] ([couplings=None] is the empty list). *)
Definition init (couplings : list Coupling) (directed : bool) (noEdge : Z)
    (fullyInterconnected : bool) : t :=
  mk (length couplings) directed noEdge fullyInterconnected couplings
     (replicate (S (length couplings)) ∅) ∅ ∅.

(** [_add_A]: a fresh [MultilayerNetworkWithParent(aspects=0)], i.e. an
    undirected aspect-0 store with the default [noEdge=0]. *)
Definition new_intra : ML.t := ML.init 0 0 false.

Definition add_A (key : list Label) (m : t) : t :=
  set_A m (<[key := new_intra]> (A m)).

(** [add_node]: a new label of an aspect [> 0] creates the intra-layer
    stores of the combinations it completes. *)
Definition add_node (node : Label) (aspect : nat) : St t unit :=
  fun m =>
    match slices m !! aspect with
    | None => (m, inl IndexError)
    | Some s =>
      if decide (node ∈ s) then (m, inr tt)
      else
        let m1 :=
          match aspect with
          | O => m
          | S a =>
            if decide (1 < aspects m)%nat then
              foldl (fun acc key => add_A key acc) m
                    (cart_prod (<[a := [node]]> (map elements (drop 1 (slices m)))))
            else add_A [node] m
          end in
        (set_slices m1 (<[aspect := {[node]} ∪ s]> (slices m1)), inr tt)
    end.

(** [_get_edge_inter_aspects]: the aspects where the two halves differ. *)
Definition get_edge_inter_aspects (aspects : nat) (link : list Label)
    : Res (list nat) :=
  let? bs := mapR (fun d => let? a := nthR link (2 * d) in
                            let? b := nthR link (2 * d + 1) in
                            inr (d, bool_decide (a <> b)))
                  (seq 0 (S aspects)) in
  inr (map fst (filter (fun p => p.2 = true) bs)).

(** [MultilayerNetworkWithParent.add_node], run on the store [A[key]]. *)
Definition intra_add_node (key : list Label) (node : Label) (aspect : nat)
    : St t unit :=
  do! _ <- add_node node 0 in
  do! m <- getS in
  do! g <- liftS (lookupR key (A m)) in
  let '(g', r) := ML.add_node node aspect g in
  do! _ <- putS (set_A m (<[key := g']> (A m))) in
  do! _ <- liftS r in
  do! m <- getS in
  if fullyInterconnected m then retS tt
  else putS (set_nodeToLayers m
               (<[node := {[key]} ∪ default ∅ (nodeToLayers m !! node)]>
                  (nodeToLayers m))).

(** [MultilayerNetwork._set_link], run on the store [A[key]]. *)
Definition intra_set_link (key : list Label) (link : list Label) (value : Z)
    : St t unit :=
  do! m <- getS in
  do! g <- liftS (lookupR key (A m)) in
  let '(g', r) := ML.set_link link value g in
  do! _ <- putS (set_A m (<[key := g']> (A m))) in
  liftS r.

(** [A[key][i, j] = value]: the inherited [__setitem__] of the aspect-0
    store ([d = 1], a 2-tuple is a link). *)
Definition intra_setitem (key : list Label) (i j : Label) (value : Z)
    : St t unit :=
  do! _ <- intra_add_node key i 0 in
  do! _ <- intra_add_node key j 0 in
  intra_set_link key [i; j] value.

(** [_set_link] *)
Definition set_link (link : list Label) (value : Z) : St t unit :=
  do! m <- getS in
  do! d <- liftS (get_edge_inter_aspects (aspects m) link) in
  match d with
  | [O] =>
      let S := evens (drop 2 link) in
      do! _ <- liftS (lookupR S (A m)) in
      do! i <- liftS (nthR link 0) in
      do! j <- liftS (nthR link 1) in
      intra_setitem S i j value
  | [] => raiseS (KeyError "No self-links.")
  | _ => raiseS (KeyError "Can only set links in the node dimension.")
  end.

(** The inherited [__setitem__]: link expansion, [add_node] of every
    component, then [_set_link]. *)
Definition setitem (item : list Label) (val : Z) : St t unit :=
  do! m <- getS in
  let d := S (aspects m) in
  do! link <- liftS (if decide (length item = 2 * d)%nat then inr item
                     else if decide (length item = d + 1)%nat
                          then inr (short_link_to_link item)
                          else inl (KeyError "Invalid number of indices.")) in
  do! _ <- forS (seq 0 (2 * d))
             (fun i => do! l <- liftS (nthR link i) in add_node l (i / 2)) in
  set_link link val.

(** [coupling[0][s, r]] on a coupling network: its [__getitem__] on a
    2-tuple is a link lookup when it has no aspects, a node view when it
    has one, and a [KeyError] otherwise. *)
Definition net_getitem2 (g : ML.t) (s r : Label) : Res Z :=
  match ML.aspects g with
  | O => ML.get_link g [s; r]
  | 1%nat => inl NotAWeight
  | _ => inl (KeyError "indices")
  end.

(** The coupling branch of [_get_link], for the labels [s], [r] of the
    differing aspect. *)
Definition coupling_link (m : t) (c : Coupling) (s r : Label) : Res Z :=
  match c with
  | Policy kind w =>
      if decide (kind = "categorical") then inr w
      else if decide (kind = "ordinal") then
        let? s1 := label_plus s 1 in
        if decide (s1 = r) then inr w
        else let? r1 := label_plus r 1 in
             if decide (s = r1) then inr w else inr (noEdge m)
      else inl CouplingError
  | NetCoupling g => net_getitem2 g s r
  end.

(** [_get_link] *)
Definition get_link (m : t) (link : list Label) : Res Z :=
  let? d := get_edge_inter_aspects (aspects m) link in
  match d with
  | [O] =>
      match A m !! evens (drop 2 link) with
      | Some g => let? i := nthR link 0 in
                  let? j := nthR link 1 in
                  ML.get_link g [i; j]
      | None => inr (noEdge m)
      end
  | [S k' as k] =>
      let? i := nthR link 0 in
      let? j := nthR link 1 in
      if decide (i = j) then
        let? s0 := nthR (slices m) 0 in
        if decide (i ∉ s0) then inr (noEdge m)
        else
          let? present :=
            (if fullyInterconnected m then inr true
             else
               let? p := link_to_nodes link in
               let? g1 := lookupR (tail p.1) (A m) in
               let? s1 := nthR (ML.slices g1) 0 in
               if decide (i ∈ s1) then
                 let? g2 := lookupR (tail p.2) (A m) in
                 let? s2 := nthR (ML.slices g2) 0 in
                 inr (bool_decide (i ∈ s2))
               else inr false) in
          if present then
            let? c := nthR (couplings m) k' in
            let? s := nthR link (2 * k) in
            let? r := nthR link (2 * k + 1) in
            coupling_link m c s r
          else inr (noEdge m)
      else inl AssertionError
  | _ => inr (noEdge m)
  end.

(** [supernode[:aspect]+(x,)+supernode[aspect+1:]] *)
Definition replace_at (node : list Label) (aspect : nat) (x : Label) : list Label :=
  take aspect node ++ [x] ++ drop (S aspect) node.

(** [supernode[1:aspect]+(x,)+supernode[aspect+1:]]: the layer tuple of
    [replace_at node aspect x]. *)
Definition layers_at (node : list Label) (aspect : nat) (x : Label) : list Label :=
  drop 1 (take aspect node) ++ [x] ++ drop (S aspect) node.

(** [_select_dimensions]: a [dims] entry that is a label and differs from
    the node's label ends the generator before anything is yielded. *)
Fixpoint select_go (node : list Label) (i : nat) (ds : list (option Label))
    : Res (option (list nat)) :=
  match ds with
  | [] => inr (Some [])
  | None :: t => let? r := select_go node (S i) t in inr (option_map (cons i) r)
  | Some v :: t =>
      let? x := nthR node i in
      if decide (x = v) then select_go node (S i) t else inr None
  end.

Definition select_dimensions (m : t) (node : list Label)
    (dims : option (list (option Label))) : Res (list nat) :=
  match dims with
  | None => inr (seq 0 (S (aspects m)))
  | Some ds => let? r := select_go node 0 ds in inr (default [] r)
  end.

(** [self._get_A_with_tuple(node[1:])] and [node[0]]. *)
Definition intra_of (m : t) (node : list Label) : Res (ML.t * Label) :=
  let? g := lookupR (tail node) (A m) in
  let? i := nthR node 0 in
  inr (g, i).

(** [_get_dim_degree] *)
Definition get_dim_degree (m : t) (supernode : list Label) (aspect : nat) : Res Z :=
  let? c := nthR (couplings m) (pred aspect) in
  match c with
  | Policy kind _ =>
    if decide (kind = "categorical") then
      if fullyInterconnected m then
        let? s := nthR (slices m) aspect in inr (Z.of_nat (size s) - 1)
      else
        let? i := nthR supernode 0 in
        let? ls := lookupR i (nodeToLayers m) in
        if decide (tail supernode ∈ ls) then
          if decide (aspects m = 1)%nat then inr (Z.of_nat (size ls) - 1)
          else
            let? kept := filterR (fun y => let? ya := nthR y aspect in
                                           let? xa := nthR supernode aspect in
                                           inr (bool_decide (ya = xa)))
                                 (elements ls) in
            inr (Z.of_nat (length kept) - 1)
        else inr 0
    else if decide (kind = "ordinal") then
      let? x := nthR supernode aspect in
      let? up := label_plus x 1 in
      let? down := label_plus x (-1) in
      if fullyInterconnected m then
        let? s := nthR (slices m) aspect in
        inr (bool_to_Z (bool_decide (up ∈ s)) + bool_to_Z (bool_decide (down ∈ s)))
      else
        let? i := nthR supernode 0 in
        let? ls := lookupR i (nodeToLayers m) in
        inr (bool_to_Z (bool_decide (replace_at supernode aspect up ∈ ls))
             + bool_to_Z (bool_decide (replace_at supernode aspect down ∈ ls)))
    else inl TypeError
  | NetCoupling g =>
      (* self.couplings[aspect-1][0][supernode[aspect]].deg() *)
      let? x := nthR supernode aspect in
      match ML.aspects g with
      | O => ML.get_degree g [x] None
      | _ => inl (KeyError "indices")
      end
  end.

(** [_get_dim_strength]: [coupling_str=self.couplings[aspect-1][1]] is an
    [IndexError] on the 1-tuple [(net,)]. *)
Definition get_dim_strength (m : t) (node : list Label) (aspect : nat) : Res Z :=
  let? c := nthR (couplings m) (pred aspect) in
  match c with
  | Policy _ w => let? k := get_dim_degree m node aspect in inr (k * w)
  | NetCoupling _ => inl IndexError
  end.

(** [_iter_dim] *)
Definition iter_dim (m : t) (supernode : list Label) (aspect : nat)
    : Res (list (list Label)) :=
  let? c := nthR (couplings m) (pred aspect) in
  match c with
  | Policy kind _ =>
    if decide (kind = "categorical") then
      if fullyInterconnected m then
        let? s := nthR (slices m) aspect in
        let? ns := filterR (fun n => let? x := nthR supernode aspect in
                                     inr (bool_decide (n <> x))) (elements s) in
        inr (map (replace_at supernode aspect) ns)
      else
        let? i := nthR supernode 0 in
        let? g := lookupR (tail supernode) (A m) in
        let? s0 := nthR (ML.slices g) 0 in
        if decide (i ∈ s0) then
          let? ls := lookupR i (nodeToLayers m) in
          inr (map (cons i) (filter (fun l => l <> tail supernode) (elements ls)))
        else inr []
    else if decide (kind = "ordinal") then
      let? x := nthR supernode aspect in
      let? up := label_plus x 1 in
      let? down := label_plus x (-1) in
      if fullyInterconnected m then
        let? s := nthR (slices m) aspect in
        inr ((if decide (up ∈ s) then [replace_at supernode aspect up] else [])
             ++ (if decide (down ∈ s) then [replace_at supernode aspect down] else []))
      else
        let? i := nthR supernode 0 in
        let? ls := lookupR i (nodeToLayers m) in
        inr ((if decide (layers_at supernode aspect up ∈ ls)
              then [replace_at supernode aspect up] else [])
             ++ (if decide (layers_at supernode aspect down ∈ ls)
                 then [replace_at supernode aspect down] else []))
    else inl TypeError
  | NetCoupling _ => inl TypeError
  end.

(** [_get_degree] *)
Definition get_degree (m : t) (node : list Label)
    (dims : option (list (option Label))) : Res Z :=
  let? ds := select_dimensions m node dims in
  let? ks := mapR (fun d => match d with
                            | O => let? p := intra_of m node in
                                   ML.get_degree p.1 [p.2] None
                            | _ => get_dim_degree m node d
                            end) ds in
  inr (sumZ ks).

(** [_get_strength] *)
Definition get_strength (m : t) (node : list Label)
    (dims : option (list (option Label))) : Res Z :=
  let? ds := select_dimensions m node dims in
  let? ks := mapR (fun d => match d with
                            | O => let? p := intra_of m node in
                                   ML.get_strength p.1 [p.2] None
                            | _ => get_dim_strength m node d
                            end) ds in
  inr (sumZ ks).

(** [_iter_neighbors] *)
Definition iter_neighbors (m : t) (node : list Label)
    (dims : option (list (option Label))) : Res (list (list Label)) :=
  let? ds := select_dimensions m node dims in
  let? parts := mapR (fun d => match d with
                               | O => let? p := intra_of m node in
                                      let? ns := ML.iter_neighbors p.1 [p.2] None in
                                      let? xs := view_neighbors 0 ns in
                                      inr (map (fun x => x ++ tail node) xs)
                               | _ => iter_dim m node d
                               end) ds in
  inr (concat parts).

(** The inherited [edges]. *)
Definition edges (m : t) : Res (list (list Label * Z)) :=
  edges_gen (aspects m) (fun n => iter_neighbors m n None) (get_link m)
            (directed m) (slices m).

End MultiplexNetwork.

(** ** Reachable stores

    A store the program can hold is one built by [__init__] and then any
    sequence of [add_node] and [__setitem__] calls, including calls that
    raised (Python keeps the mutations done before the raise). *)

Module Reach.
Module ML := MultilayerNetwork.
Module MX := MultiplexNetwork.

Inductive ml_reachable : ML.t -> Prop :=
| ml_reach_init aspects noEdge directed :
    ml_reachable (ML.init aspects noEdge directed)
| ml_reach_add_node g node aspect :
    ml_reachable g -> ml_reachable (fst (ML.add_node node aspect g))
| ml_reach_setitem g item w :
    ml_reachable g -> ml_reachable (fst (ML.setitem item w g)).

Inductive mx_reachable : MX.t -> Prop :=
| mx_reach_init couplings directed noEdge full :
    mx_reachable (MX.init couplings directed noEdge full)
| mx_reach_add_node m node aspect :
    mx_reachable m -> mx_reachable (fst (MX.add_node node aspect m))
| mx_reach_setitem m item w :
    mx_reachable m -> mx_reachable (fst (MX.setitem item w m)).

End Reach.

(** [swap_node_halves]: [(i,j,s_1,r_1,...)] becomes [(j,i,r_1,s_1,...)]. *)
Fixpoint swap_pairs {A} (l : list A) : list A :=
  match l with
  | a :: b :: t => b :: a :: swap_pairs t
  | _ => l
  end.

(** The link set of an adjacency: [adjacency[u][v]]. *)
Definition lookup2 (n : gmap (list Label) (gmap (list Label) Z))
    (u v : list Label) : option Z :=
  n !! u ≫= (fun r => r !! v).

Definition sym (n : gmap (list Label) (gmap (list Label) Z)) : Prop :=
  forall u v, lookup2 n u v = lookup2 n v u.

(** ** Invariants

    [preserves P c]: running [c] from a state satisfying [P] ends, normally
    or by an exception, in one. *)
Definition preserves {S A} (P : S -> Prop) (c : St S A) : Prop :=
  forall s, P s -> P (fst (c s)).

Module MLInv.
Import MultilayerNetwork.

(** The adjacency of an undirected store is symmetric. *)
Definition undirected_sym (g : t) : Prop := directed g = false -> sym (net g).

End MLInv.

Module MXInv.
Import MultiplexNetwork.

(** The intra-layer stores the code creates are undirected aspect-0 stores;
    [_set_link] keeps their adjacency symmetric. *)
Definition intra_ok (g : ML.t) : Prop :=
  ML.directed g = false /\ length (ML.slices g) = 1%nat /\ sym (ML.net g).

(** Every label of a layer combination in [A] is registered in the slice of
    its aspect. *)
Definition keys_registered (m : t) : Prop :=
  forall key g, A m !! key = Some g ->
  forall a l, key !! a = Some l -> exists s, slices m !! S a = Some s /\ l ∈ s.

Record Inv (m : t) : Prop := {
  inv_len : length (slices m) = S (aspects m);
  inv_intra : forall key g, A m !! key = Some g -> intra_ok g;
  inv_keys : keys_registered m
}.

(** The layer combinations [add_node] creates. *)
Definition new_keys (m : t) (node : Label) (aspect : nat) (s : gset Label)
    : list (list Label) :=
  if decide (node ∈ s) then []
  else match aspect with
       | O => []
       | S a => if decide (1 < aspects m)%nat
                then cart_prod (<[a := [node]]> (map elements (drop 1 (slices m))))
                else [[node]]
       end.

Definition add_keys (a0 : gmap (list Label) ML.t) keys :=
  foldl (fun a key => <[key := new_intra]> a) a0 keys.

(** What a step may do to the rest of the store: the configuration, the
    node-to-layers map and the existing intra-layer stores stay, and the
    only new stores are fresh empty ones. *)
Record extends (m m' : t) : Prop := {
  ext_aspects : aspects m' = aspects m;
  ext_directed : directed m' = directed m;
  ext_noEdge : noEdge m' = noEdge m;
  ext_full : fullyInterconnected m' = fullyInterconnected m;
  ext_couplings : couplings m' = couplings m;
  ext_nodeToLayers : nodeToLayers m' = nodeToLayers m;
  ext_old : forall k g, A m !! k = Some g -> A m' !! k = Some g;
  ext_new : forall k g, A m !! k = None -> A m' !! k = Some g -> g = new_intra
}.

Definition slice_has (m : t) (a : nat) (x : Label) : Prop :=
  exists s, slices m !! a = Some s /\ x ∈ s.

Definition reg_body (link : list Label) (i : nat) : St t unit :=
  do! l <- liftS (nthR link i) in add_node l (i / 2).

End MXInv.

(** ** Indexing: [__getitem__] and [MultilayerNode]

    [__getitem__] is written once in [MultilayerNetwork] and calls the
    method a subclass overrides ([_get_link]).  The class [Net] collects
    what it uses; the two classes are its instances.  Items are tuples of labels: a label is never the
    slice [COLON], so the slicing branches of [__getitem__] are not taken
    ([colons] stays 0 and [COLON not in item[2:]] holds).  A non-tuple item
    [x] is wrapped as [(x,)] by the code; the item here is that tuple. *)
Class Net (T : Type) := {
  n_aspects : T -> nat;
  n_get_link : T -> list Label -> Res Z
}.

#[global] Instance MultilayerNetwork_Net : Net MultilayerNetwork.t := {
  n_aspects := MultilayerNetwork.aspects;
  n_get_link := MultilayerNetwork.get_link
}.

#[global] Instance MultiplexNetwork_Net : Net MultiplexNetwork.t := {
  n_aspects := MultiplexNetwork.aspects;
  n_get_link := MultiplexNetwork.get_link
}.

(** [MultilayerNode(node, mnet, layers)] *)
Record View : Type := mkView {
  v_node : list Label;
  v_layers : option (list (option Label))
}.

(** What [__getitem__] returns: a weight ([_get_link]) or a node view. *)
Inductive Got : Type :=
| GWeight (w : Z)
| GNode (v : View).

(** The [KeyError] message for a wrong number of indices. *)
Definition indices_msg (d : nat) : string :=
  if decide (1 < d)%nat then
    String.append (pretty d) (String.append ", " (String.append (pretty (S d))
      (String.append ", or " (String.append (pretty (2 * d)%nat) " indices please."))))
  else "1 or 2 indices please.".

Section Indexing.
Context {T : Type} `{Net T}.

(** [__getitem__].  The [len(item)==d+1] branch returns
    [self[self._short_link_to_link(item)]]; the expanded tuple has length
    [2d], so that call takes the link branch ([_get_link]), which is what is
    written here (lemma [getitem_expanded]). *)
Definition getitem (g : T) (item : list Label) : Res Got :=
  let d := S (n_aspects g) in
  if decide (length item = d) then inr (GNode (mkView item None))
  else if decide (length item = 2 * d)%nat then
    let? w := n_get_link g item in inr (GWeight w)
  else if decide (length item = d + 1)%nat then
    let? w := n_get_link g (short_link_to_link item) in inr (GWeight w)
  else inl (KeyError (indices_msg d)).

End Indexing.

(** ** Lemmas *)

Module MLOk.
Import MultilayerNetwork.

(** The registration loop of [__setitem__]. *)
Definition reg_body (link : list Label) (i : nat) : St t unit :=
  do! l <- liftS (nthR link i) in add_node l (i / 2).

(** A stored entry [_net[u][v]] never holds the [noEdge] weight, and joins
    two nodes of [aspects+1] coordinates. *)
Definition net_ok (g : t) : Prop :=
  forall u v x, lookup2 (net g) u v = Some x ->
  x <> noEdge g /\ length u = S (aspects g) /\ length v = S (aspects g).

Record Ok (g : t) : Prop := {
  ok_len : length (slices g) = S (aspects g);
  ok_net : net_ok g
}.

End MLOk.

Module MXOk.
Import MultiplexNetwork MXInv.

(** Every layer combination whose labels are all registered (label [a] of
    the combination in slice [a+1]) has its intra-layer store in [A]. *)
Definition complete (m : t) : Prop :=
  (1 <= aspects m)%nat ->
  forall key, length key = aspects m ->
  (forall a l, key !! a = Some l -> slice_has m (S a) l) ->
  is_Some (A m !! key).

Definition Ok (m : t) : Prop := Inv m /\ complete m.

(** With no aspects, [A] stays empty. *)
Definition EmptyA (m : t) : Prop := Inv m /\ (aspects m = 0%nat -> A m = ∅).

End MXOk.

(** ** Lemmas on the embedding *)

Section Lookup2.
Implicit Types n : gmap (list Label) (gmap (list Label) Z).

Lemma lookup2_default n k v : default ∅ (n !! k) !! v = lookup2 n k v.
Proof. unfold lookup2. by destruct (n !! k). Qed.

Lemma lookup2_insert_empty n k u v :
  n !! k = None -> lookup2 (<[k := ∅]> n) u v = lookup2 n u v.
Proof.
  intros Hk. unfold lookup2. destruct (decide (k = u)) as [<-|Hne].
  - rewrite lookup_insert_eq, Hk. simpl. by rewrite lookup_empty.
  - by rewrite lookup_insert_ne.
Qed.

Lemma lookup2_put n k k2 x u v :
  lookup2 (<[k := <[k2 := x]> (default ∅ (n !! k))]> n) u v
  = if decide (u = k /\ v = k2) then Some x else lookup2 n u v.
Proof.
  unfold lookup2. destruct (decide (k = u)) as [<-|Hne].
  - rewrite lookup_insert_eq. simpl.
    destruct (decide (k2 = v)) as [<-|Hne2].
    + rewrite lookup_insert_eq. by rewrite decide_True.
    + rewrite lookup_insert_ne by done. rewrite decide_False by naive_solver.
      by destruct (n !! k).
  - rewrite lookup_insert_ne by done. rewrite decide_False by naive_solver. done.
Qed.

Lemma lookup2_del n k k2 m1 u v :
  n !! k = Some m1 ->
  lookup2 (<[k := delete k2 m1]> n) u v
  = if decide (u = k /\ v = k2) then None else lookup2 n u v.
Proof.
  intros Hk. unfold lookup2. destruct (decide (k = u)) as [<-|Hne].
  - rewrite lookup_insert_eq, Hk. simpl.
    destruct (decide (k2 = v)) as [<-|Hne2].
    + rewrite lookup_delete_eq. by rewrite decide_True.
    + rewrite lookup_delete_ne by done. by rewrite decide_False by naive_solver.
  - rewrite lookup_insert_ne by done. by rewrite decide_False by naive_solver.
Qed.
End Lookup2.

Module MLFacts.
Import MultilayerNetwork.

Lemma lookup2_ensure (n : gmap (list Label) (gmap (list Label) Z)) k u v :
  lookup2 (if decide (is_Some (n !! k)) then n else <[k := ∅]> n) u v
  = lookup2 n u v.
Proof.
  case_decide as H; [done|]. apply lookup2_insert_empty. by apply eq_None_not_Some.
Qed.

Lemma set_link_fields link value g :
  aspects (fst (set_link link value g)) = aspects g /\
  directed (fst (set_link link value g)) = directed g /\
  noEdge (fst (set_link link value g)) = noEdge g /\
  slices (fst (set_link link value g)) = slices g.
Proof.
  unfold set_link. destruct (link_to_nodes link) as [e|[n1 n2]]; [done|].
  repeat case_match; done.
Qed.

(** Removing the stored entry [net[node1][node2]] of an undirected,
    symmetric adjacency: either both directions go, or the two nodes are
    equal. *)
Lemma set_link_sym link value g :
  directed g = false -> sym (net g) -> sym (net (fst (set_link link value g))).
Proof.
  intros Hd Hs. unfold set_link.
  destruct (link_to_nodes link) as [e|[n1 n2]]; [done|]. rewrite Hd.
  case_decide.
  - destruct (net g !! n1) as [m1|] eqn:E1; [|done].
    destruct (m1 !! n2) as [x|] eqn:E2; [|done].
    assert (L12 : lookup2 (net g) n1 n2 = Some x)
      by (unfold lookup2; rewrite E1; done).
    assert (C1 : forall u v, lookup2 (<[n1 := delete n2 m1]> (net g)) u v
               = if decide (u = n1 /\ v = n2) then None else lookup2 (net g) u v)
      by (intros; by apply lookup2_del).
    destruct (<[n1 := delete n2 m1]> (net g) !! n2) as [m2|] eqn:E3.
    + destruct (m2 !! n1) as [y|] eqn:E4; simpl.
      * intros u v. rewrite !(lookup2_del _ _ _ m2) by done. rewrite !C1.
        specialize (Hs u v). repeat case_decide; naive_solver.
      * destruct (decide (n1 = n2)) as [<-|Hne].
        -- intros u v. rewrite !C1. specialize (Hs u v).
           repeat case_decide; naive_solver.
        -- exfalso. specialize (C1 n2 n1). rewrite decide_False in C1 by naive_solver.
           rewrite <- Hs, L12 in C1. unfold lookup2 in C1. rewrite E3 in C1.
           simpl in C1. congruence.
    + exfalso. destruct (decide (n1 = n2)) as [<-|Hne].
      * rewrite lookup_insert_eq in E3. congruence.
      * specialize (C1 n2 n1). rewrite decide_False in C1 by naive_solver.
        rewrite <- Hs, L12 in C1. unfold lookup2 in C1. rewrite E3 in C1.
        simpl in C1. congruence.
  - simpl. intros u v.
    rewrite !lookup2_put, !lookup2_ensure. specialize (Hs u v).
    repeat case_decide; naive_solver.
Qed.

(** On an undirected, symmetric adjacency, [_set_link] raises only when
    removing a self-loop. *)
Lemma set_link_ok link value g n1 n2 :
  directed g = false -> sym (net g) -> link_to_nodes link = inr (n1, n2) ->
  n1 <> n2 -> snd (set_link link value g) = inr tt.
Proof.
  intros Hd Hs Hl Hne. unfold set_link. rewrite Hl, Hd. case_decide; [|done].
  destruct (net g !! n1) as [m1|] eqn:E1; [|done].
  destruct (m1 !! n2) as [x|] eqn:E2; [|done].
  assert (L21 : lookup2 (net g) n2 n1 = Some x)
    by (rewrite <- Hs; unfold lookup2; rewrite E1; done).
  rewrite lookup_insert_ne by done.
  unfold lookup2 in L21. destruct (net g !! n2) as [m2|]; [|done].
  simpl in L21. by rewrite L21.
Qed.

End MLFacts.

Section Preserves.
Context {S : Type} (P : S -> Prop).

Lemma preserves_ret {A} (a : A) : preserves P (retS a).
Proof. by intros s. Qed.

Lemma preserves_raise {A} e : preserves P (A:=A) (raiseS e).
Proof. by intros s. Qed.

Lemma preserves_lift {A} (r : Res A) : preserves P (liftS r).
Proof. by intros s. Qed.

Lemma preserves_bind {A B} (m : St S A) (k : A -> St S B) :
  preserves P m -> (forall a, preserves P (k a)) -> preserves P (bindS m k).
Proof.
  intros Hm Hk s Hs. unfold bindS. specialize (Hm s Hs).
  destruct (m s) as [s' [e|a]]; simpl in *; [done|]. by apply Hk.
Qed.

Lemma preserves_get {A} (k : S -> St S A) :
  (forall s, P s -> P (fst (k s s))) -> preserves P (bindS getS k).
Proof. intros Hk s Hs. by apply Hk. Qed.

Lemma preserves_get_all {A} (k : S -> St S A) :
  (forall s0, preserves P (k s0)) -> preserves P (bindS getS k).
Proof. intros Hk s Hs. by apply Hk. Qed.

Lemma preserves_forS {A} (l : list A) (body : A -> St S unit) :
  (forall x, preserves P (body x)) -> preserves P (forS l body).
Proof.
  intros Hb. induction l as [|x l IH]; simpl.
  - apply preserves_ret.
  - apply preserves_bind; [apply Hb|]. intros _. apply IH.
Qed.
End Preserves.

Create HintDb preserves.
#[global] Hint Resolve preserves_ret preserves_raise preserves_lift
  preserves_bind preserves_forS : preserves.

Module MLReach.
Import MultilayerNetwork Reach MLInv.

Lemma add_node_fields node aspect g :
  directed (fst (add_node node aspect g)) = directed g /\
  net (fst (add_node node aspect g)) = net g.
Proof. unfold add_node. by case_match. Qed.

Lemma add_node_pres node aspect : preserves undirected_sym (add_node node aspect).
Proof.
  intros g Hg. unfold undirected_sym.
  destruct (add_node_fields node aspect g) as [-> ->]. done.
Qed.

Lemma set_link_pres link v : preserves undirected_sym (set_link link v).
Proof.
  intros g Hg Hd. destruct (MLFacts.set_link_fields link v g) as (_ & Hd' & _).
  rewrite Hd' in Hd. apply MLFacts.set_link_sym; [done | by apply Hg].
Qed.

#[local] Hint Resolve add_node_pres set_link_pres : preserves.

Lemma setitem_pres item w : preserves undirected_sym (setitem item w).
Proof.
  unfold setitem. apply preserves_get_all. intros g0.
  apply preserves_bind; [eauto with preserves|]. intros link.
  eauto with preserves.
Qed.

Lemma reachable_sym g : ml_reachable g -> undirected_sym g.
Proof.
  induction 1.
  - intros _ u v. done.
  - by apply add_node_pres.
  - by apply setitem_pres.
Qed.

End MLReach.

Section ListFacts.
Context {A : Type}.

Lemma evens_cons (x : A) (t : list A) : evens (x :: t) = x :: evens (tail t).
Proof. by destruct t. Qed.

Lemma evens_swap_pairs (n : nat) (l : list A) :
  length l = (2 * n)%nat ->
  evens (swap_pairs l) = evens (tail l) /\ evens (tail (swap_pairs l)) = evens l.
Proof.
  revert l. induction n as [|n IH]; intros l Hl.
  - destruct l; [done | simpl in Hl; lia].
  - destruct l as [|a [|b t]]; simpl in Hl; try lia.
    destruct (IH t) as [H1 H2]; [lia|]. cbn [swap_pairs tail].
    rewrite !evens_cons. cbn [tail]. rewrite H1, H2. done.
Qed.

Lemma lookup_swap_pairs_even (l : list A) (d : nat) :
  (2 * d + 1 < length l)%nat ->
  swap_pairs l !! (2 * d)%nat = l !! (2 * d + 1)%nat /\
  swap_pairs l !! (2 * d + 1)%nat = l !! (2 * d)%nat.
Proof.
  revert l. induction d as [|d IH]; intros l Hl.
  - destruct l as [|a [|b t]]; simpl in Hl; try lia. done.
  - destruct l as [|a [|b t]]; simpl in Hl; try lia.
    replace (2 * S d)%nat with (S (S (2 * d))) by lia.
    replace (2 * S d + 1)%nat with (S (S (2 * d + 1))) by lia.
    simpl. apply IH. lia.
Qed.

Lemma length_swap_pairs (l : list A) : length (swap_pairs l) = length l.
Proof.
  remember (length l) as n eqn:E. revert l E.
  induction n as [n IH] using lt_wf_ind.
  intros [|a [|b t]] E; simpl in *; try done.
  rewrite (IH (length t)); [lia | lia | done].
Qed.

Lemma cart_prod_Forall2 (ls : list (list A)) key :
  In key (cart_prod ls) -> Forall2 (fun l xs => In l xs) key ls.
Proof.
  revert key. induction ls as [|l ls IH]; intros key Hin; simpl in Hin.
  - destruct Hin as [<-|[]]. constructor.
  - apply in_flat_map in Hin as (x & Hx & Hin).
    apply in_map_iff in Hin as (rest & <- & Hrest).
    constructor; [done|]. by apply IH.
Qed.
End ListFacts.

Lemma Forall2_In_l {A B} (P : A -> B -> Prop) l k x :
  Forall2 P l k -> In x l -> exists y, In y k /\ P x y.
Proof.
  induction 1 as [|a b l k Hab _ IH]; simpl; intros Hin; [done|].
  destruct Hin as [<-|Hin].
  - exists b. split; [left|]; done.
  - destruct (IH Hin) as (y & Hy & Hp). exists y. split; [right|]; done.
Qed.

Lemma Forall2_In_r {A B} (P : A -> B -> Prop) l k y :
  Forall2 P l k -> In y k -> exists x, In x l /\ P x y.
Proof.
  induction 1 as [|a b l k Hab _ IH]; simpl; intros Hin; [done|].
  destruct Hin as [<-|Hin].
  - exists a. split; [left|]; done.
  - destruct (IH Hin) as (x & Hx & Hp). exists x. split; [right|]; done.
Qed.

Lemma mapR_inr {A B} (f : A -> Res B) l ys :
  mapR f l = inr ys -> Forall2 (fun x y => f x = inr y) l ys.
Proof.
  revert ys. induction l as [|x l IH]; intros ys H; simpl in H.
  - injection H as <-. constructor.
  - destruct (f x) as [e|y] eqn:Ef; [done|]. simpl in H.
    destruct (mapR f l) as [e|ys'] eqn:El; [done|]. simpl in H.
    injection H as <-. constructor; [done|]. by apply IH.
Qed.

Lemma mapR_ext {A B} (f g : A -> Res B) l :
  (forall x, In x l -> f x = g x) -> mapR f l = mapR g l.
Proof.
  induction l as [|x l IH]; intros H; simpl; [done|].
  rewrite (H x) by (left; done). rewrite IH; [done|]. intros y Hy. apply H. by right.
Qed.

(** The differing aspects of a link, as [_get_edge_inter_aspects] finds
    them. *)
Lemma inter_aspects_spec asp link D :
  MultiplexNetwork.get_edge_inter_aspects asp link = inr D ->
  forall d, In d D <-> (d <= asp)%nat /\ exists a b, link !! (2 * d)%nat = Some a /\
                         link !! (2 * d + 1)%nat = Some b /\ a <> b.
Proof.
  unfold MultiplexNetwork.get_edge_inter_aspects. intros H d.
  destruct (mapR _ _) as [e|bs] eqn:Hm; [done|]. simpl in H. injection H as <-.
  apply mapR_inr in Hm.
  rewrite in_map_iff. split.
  - intros ([d' b] & Hd & Hin). simpl in Hd. subst.
    apply list_elem_of_In, list_elem_of_filter in Hin as [Hb Hin].
    apply list_elem_of_In in Hin. simpl in Hb.
    destruct (Forall2_In_r _ _ _ _ Hm Hin) as (x & Hx & Hf).
    apply in_seq in Hx.
    unfold nthR, bindR in Hf.
    destruct (link !! (2 * x)%nat) as [a|] eqn:Ea; [|discriminate].
    destruct (link !! (2 * x + 1)%nat) as [c|] eqn:Ec; [|discriminate].
    injection Hf as -> <-.
    split; [lia|]. exists a, c. split; [done|]. split; [done|]. by apply bool_decide_eq_true in Hb.
  - intros (Hd & a & b & Ha & Hb & Hab).
    assert (Hx : In d (seq 0 (S asp))) by (apply in_seq; lia).
    destruct (Forall2_In_l _ _ _ _ Hm Hx) as (y & Hy & Hf).
    unfold nthR in Hf. rewrite Ha, Hb in Hf. simpl in Hf. injection Hf as <-.
    exists (d, true). split; [done|]. apply list_elem_of_In, list_elem_of_filter.
    split; [done|]. apply list_elem_of_In.
    by replace (bool_decide (a <> b)) with true in Hy
      by (symmetry; by apply bool_decide_eq_true).
Qed.

Lemma lookup_map_nat {A B} (f : A -> B) (l : list A) (i : nat) :
  map f l !! i = f <$> l !! i.
Proof. revert i. induction l as [|x l IH]; intros [|i]; simpl; auto. Qed.

Lemma lookup_foldl_insert {V} (v : V) (a0 : gmap (list Label) V) keys k :
  foldl (fun a key => <[key := v]> a) a0 keys !! k
  = if decide (k ∈ keys) then Some v else a0 !! k.
Proof.
  revert a0. induction keys as [|key keys IH]; intros a0; cbn [foldl].
  - case_decide as Hk; [|done]. by apply elem_of_nil in Hk.
  - rewrite IH. case_decide as Hk; case_decide as Hk'; try done.
    + exfalso. apply Hk'. by right.
    + destruct (decide (key = k)) as [<-|Hne].
      * by rewrite lookup_insert_eq.
      * exfalso. apply elem_of_cons in Hk' as [->|?]; done.
    + destruct (decide (key = k)) as [<-|Hne].
      * exfalso. apply Hk'. by left.
      * by rewrite lookup_insert_ne.
Qed.

Module MXFacts.
Import MultiplexNetwork Reach MXInv.

Lemma new_intra_ok : intra_ok new_intra.
Proof.
  split; [done|]. split; [done|]. intros u v. unfold lookup2. cbn. by rewrite !lookup_empty.
Qed.

Lemma foldl_add_A m keys :
  foldl (fun acc key => add_A key acc) m keys = set_A m (add_keys (A m) keys).
Proof.
  revert m. induction keys as [|key keys IH]; intros m; simpl.
  - by destruct m.
  - rewrite IH. done.
Qed.

Lemma add_node_eq node aspect m s :
  slices m !! aspect = Some s ->
  add_node node aspect m =
    (mk (aspects m) (directed m) (noEdge m) (fullyInterconnected m) (couplings m)
        (<[aspect := {[node]} ∪ s]> (slices m))
        (add_keys (A m) (new_keys m node aspect s)) (nodeToLayers m), inr tt).
Proof.
  intros Hs. unfold add_node, new_keys. rewrite Hs.
  destruct (decide (node ∈ s)) as [Hn|Hn].
  - rewrite list_insert_id.
    + by destruct m.
    + rewrite Hs. f_equal. apply leibniz_equiv. set_solver.
  - destruct aspect as [|a]; [by destruct m|].
    case_decide.
    + by rewrite foldl_add_A.
    + done.
Qed.

Lemma lookup_insert_slices (sl : list (gset Label)) i j x y :
  sl !! i = Some y ->
  <[i := x]> sl !! j = if decide (i = j) then Some x else sl !! j.
Proof.
  intros Hi. rewrite list_lookup_insert. apply lookup_lt_Some in Hi.
  destruct (decide (i = j)); repeat case_decide; naive_solver.
Qed.

Lemma new_keys_fresh node aspect m s :
  Inv m -> slices m !! aspect = Some s ->
  forall k, k ∈ new_keys m node aspect s -> A m !! k = None.
Proof.
  intros [Hlen _ Hreg] Hs k Hk. unfold new_keys in Hk.
  destruct (decide (node ∈ s)) as [Hn|Hn]; [by apply elem_of_nil in Hk|].
  destruct aspect as [|a]; [by apply elem_of_nil in Hk|].
  apply eq_None_not_Some. intros [g Hg].
  assert (Ha : (S a < S (aspects m))%nat) by (rewrite <- Hlen; by eapply lookup_lt_Some).
  assert (Hka : k !! a = Some node).
  { case_decide.
    - apply list_elem_of_In, cart_prod_Forall2 in Hk.
      destruct (Forall2_lookup_r _ _ _ a [node] Hk) as (x & Hx & Hin).
      + apply list_lookup_insert_eq.
        rewrite length_map, length_drop. lia.
      + destruct Hin as [<-|[]]. done.
    - apply list_elem_of_singleton in Hk. subst k.
      assert (a = 0%nat) as -> by lia. done. }
  destruct (Hreg k g Hg a node Hka) as (s' & Hs' & Hin). congruence.
Qed.

Lemma new_keys_registered node aspect m s :
  length (slices m) = S (aspects m) -> slices m !! aspect = Some s ->
  forall k, k ∈ new_keys m node aspect s ->
  forall a l, k !! a = Some l ->
  exists s', <[aspect := {[node]} ∪ s]> (slices m) !! S a = Some s' /\ l ∈ s'.
Proof.
  intros Hlen Hs k Hk a l Hl. unfold new_keys in Hk.
  destruct (decide (node ∈ s)) as [Hn|Hn]; [by apply elem_of_nil in Hk|].
  destruct aspect as [|b]; [by apply elem_of_nil in Hk|].
  rewrite (lookup_insert_slices _ _ _ _ s) by done.
  case_decide as Hlt.
  - apply list_elem_of_In, cart_prod_Forall2 in Hk.
    destruct (Forall2_lookup_l _ _ _ a l Hk Hl) as (xs & Hxs & Hin).
    rewrite list_lookup_insert in Hxs.
    case_decide as Hab.
    + destruct Hab as [-> _]. injection Hxs as <-. destruct Hin as [<-|[]].
      rewrite decide_True by done. eexists. split; [done|]. set_solver.
    + rewrite lookup_map_nat, lookup_drop in Hxs. simpl in Hxs.
      destruct (slices m !! S a) as [s'|] eqn:E; [|done]. simpl in Hxs. injection Hxs as <-.
      apply list_elem_of_In, elem_of_elements in Hin.
      case_decide as Hba.
      * injection Hba as ->. rewrite Hs in E. injection E as ->.
        eexists. split; [done|]. set_solver.
      * by exists s'.
  - apply list_elem_of_singleton in Hk. subst k.
    destruct a as [|a]; [|done]. injection Hl as <-.
    destruct b as [|b].
    + rewrite decide_True by done. eexists. split; [done|]. set_solver.
    + exfalso. apply lookup_lt_Some in Hs. lia.
Qed.


Ltac proj_simpl := cbn [fst snd aspects directed noEdge fullyInterconnected couplings
                         slices A nodeToLayers set_A set_slices set_nodeToLayers] in *.

Lemma lookup_add_keys a0 keys k :
  add_keys a0 keys !! k = if decide (k ∈ keys) then Some new_intra else a0 !! k.
Proof. apply lookup_foldl_insert. Qed.

Lemma add_node_inv node aspect : preserves Inv (add_node node aspect).
Proof.
  intros m Hm. destruct (slices m !! aspect) as [s|] eqn:Hs.
  2:{ unfold add_node. by rewrite Hs. }
  rewrite (add_node_eq _ _ _ s Hs). proj_simpl. destruct Hm as [Hlen Hintra Hreg].
  split; proj_simpl.
  - by rewrite length_insert.
  - intros key g. rewrite lookup_add_keys. case_decide.
    + intros [= <-]. apply new_intra_ok.
    + apply Hintra.
  - unfold keys_registered. proj_simpl.
    intros key g. rewrite lookup_add_keys. case_decide as Hk.
    + intros _ a l Hl. by eapply new_keys_registered.
    + intros Hg a l Hl. destruct (Hreg key g Hg a l Hl) as (s' & Hs' & Hin).
      rewrite (lookup_insert_slices _ _ _ _ s Hs). case_decide as E.
      * subst. rewrite Hs in Hs'. injection Hs' as ->. eexists; split; [done|]. set_solver.
      * by exists s'.
Qed.

Lemma extends_refl m : extends m m.
Proof. split; try done. intros k g E. congruence. Qed.

Lemma extends_trans m1 m2 m3 : extends m1 m2 -> extends m2 m3 -> extends m1 m3.
Proof.
  intros [] []. split; try congruence; auto.
  intros k g E1 E3. destruct (A m2 !! k) as [g2|] eqn:E2.
  - assert (g2 = new_intra) as -> by eauto.
    assert (A m3 !! k = Some new_intra) by auto. congruence.
  - eauto.
Qed.

Lemma add_node_extends node aspect m s :
  Inv m -> slices m !! aspect = Some s ->
  add_node node aspect m = (fst (add_node node aspect m), inr tt) /\
  extends m (fst (add_node node aspect m)) /\
  slices (fst (add_node node aspect m)) = <[aspect := {[node]} ∪ s]> (slices m).
Proof.
  intros Hm Hs. rewrite (add_node_eq _ _ _ s Hs). proj_simpl.
  split; [done|]. split; [|done]. split; try done; proj_simpl.
  - intros k g Hg. rewrite lookup_add_keys. case_decide as Hk; [|done].
    by rewrite (new_keys_fresh node aspect m s Hm Hs k Hk) in Hg.
  - intros k g Hg. rewrite lookup_add_keys. case_decide; congruence.
Qed.

Lemma bindS_inr {S A B} (c : St S A) (k : A -> St S B) s s' a :
  c s = (s', inr a) -> bindS c k s = k a s'.
Proof. intros H. unfold bindS. by rewrite H. Qed.

Lemma setitem_loop m link l :
  Inv m -> length link = (2 * S (aspects m))%nat ->
  (forall i, In i l -> (i < length link)%nat) ->
  snd (forS l (reg_body link) m) = inr tt /\
  Inv (fst (forS l (reg_body link) m)) /\
  extends m (fst (forS l (reg_body link) m)) /\
  length (slices (fst (forS l (reg_body link) m))) = length (slices m) /\
  forall a x, slice_has (fst (forS l (reg_body link) m)) a x <->
    slice_has m a x \/ exists i, In i l /\ (i / 2)%nat = a /\ link !! i = Some x.
Proof.
  revert m. induction l as [|i l IH]; intros m Hm Hlen Hl; simpl.
  - split; [done|]. split; [done|]. split; [apply extends_refl|]. split; [done|].
    intros a x. split; [by left|]. intros [?|(? & [] & _)]. done.
  - assert (Hi : (i < length link)%nat) by (apply Hl; by left).
    destruct (lookup_lt_is_Some_2 link i Hi) as [x Hx].
    assert (Hs : is_Some (slices m !! (i / 2)%nat)).
    { apply lookup_lt_is_Some_2. rewrite (inv_len _ Hm).
      apply Nat.Div0.div_lt_upper_bound. lia. }
    destruct Hs as [s Hs].
    destruct (add_node_extends x (i / 2) m s Hm Hs) as (Hok & Hext & Hsl).
    set (m1 := fst (add_node x (i / 2) m)) in *.
    assert (Hbody : reg_body link i m = (m1, inr tt)).
    { unfold reg_body. rewrite (bindS_inr _ _ _ m x); [done|]. unfold liftS, nthR. by rewrite Hx. }
    rewrite (bindS_inr _ _ _ m1 tt Hbody).
    assert (Hm1 : Inv m1) by (by apply add_node_inv).
    destruct (IH m1) as (Hr & Hinv & Hext' & Hlen' & Hmem); try done.
    { by rewrite (ext_aspects _ _ Hext). }
    { intros j Hj. apply Hl. by right. }
    split; [done|]. split; [done|]. split; [by eapply extends_trans|].
    split; [by rewrite Hlen', Hsl, length_insert|].
    intros a y. rewrite Hmem. unfold slice_has. rewrite Hsl.
    rewrite (lookup_insert_slices _ _ _ _ s Hs).
    case_decide as E.
    + subst a. split.
      * intros [(s' & [= <-] & Hin)|(j & Hj & Hja & Hjy)].
        -- apply elem_of_union in Hin as [Hin|Hin].
           ++ apply elem_of_singleton in Hin. subst y. right. exists i. split; [by left|]. done.
           ++ left. eauto.
        -- right. exists j. split; [by right|]. done.
      * intros [(s' & Hs' & Hin)|(j & [<-|Hj] & Hja & Hjy)].
        -- left. rewrite Hs in Hs'. injection Hs' as <-. eexists; split; [done|]. set_solver.
        -- left. rewrite Hx in Hjy. injection Hjy as <-. eexists; split; [done|]. set_solver.
        -- right. eauto.
    + split.
      * intros [H|(j & Hj & Hja & Hjy)]; [by left|]. right. exists j. split; [by right|]. done.
      * intros [H|(j & [<-|Hj] & Hja & Hjy)]; [by left| done |]. right. eauto.
Qed.


Lemma Inv_set_A_insert m key g g' :
  Inv m -> A m !! key = Some g -> intra_ok g' -> Inv (set_A m (<[key := g']> (A m))).
Proof.
  intros [Hlen Hintra Hreg] Hg Hg'. split; proj_simpl; [done| |].
  - intros k h. destruct (decide (k = key)) as [->|Hne].
    + rewrite lookup_insert_eq. by intros [= <-].
    + rewrite lookup_insert_ne by done. apply Hintra.
  - unfold keys_registered. proj_simpl. intros k h. destruct (decide (k = key)) as [->|Hne].
    + rewrite lookup_insert_eq. intros _. by apply (Hreg key g).
    + rewrite lookup_insert_ne by done. apply Hreg.
Qed.

Lemma Inv_set_nodeToLayers m n : Inv m -> Inv (set_nodeToLayers m n).
Proof. intros [Hlen Hintra Hreg]. by split. Qed.

Lemma ml_add_node_intra node aspect g :
  intra_ok g -> intra_ok (fst (ML.add_node node aspect g)).
Proof.
  intros (Hd & Hl & Hs). unfold ML.add_node. case_match; [|done].
  split; [done|]. split; [|done]. simpl. by rewrite length_insert.
Qed.

Lemma ml_set_link_intra link v g :
  intra_ok g -> intra_ok (fst (ML.set_link link v g)).
Proof.
  intros (Hd & Hl & Hs). destruct (MLFacts.set_link_fields link v g) as (_ & Hd' & _ & Hl').
  split; [congruence|]. split; [congruence|]. by apply MLFacts.set_link_sym.
Qed.

Lemma intra_add_node_inv key node aspect : preserves Inv (intra_add_node key node aspect).
Proof.
  intros m0 Hm0. pose proof (add_node_inv node 0 m0 Hm0) as Hm1.
  unfold intra_add_node, bindS, getS, liftS, putS, retS, lookupR.
  destruct (add_node node 0 m0) as [m1 [e|[]]]; simpl in Hm1; [done|].
  destruct (A m1 !! key) as [g|] eqn:Eg; [|done].
  pose proof (ml_add_node_intra node aspect g (inv_intra _ Hm1 _ _ Eg)) as Hg'.
  destruct (ML.add_node node aspect g) as [g' [e|[]]]; simpl in Hg'.
  - by apply (Inv_set_A_insert _ _ g).
  - pose proof (Inv_set_A_insert _ _ g g' Hm1 Eg Hg').
    destruct (fullyInterconnected _); [done|]. by apply Inv_set_nodeToLayers.
Qed.

Lemma intra_set_link_inv key link v : preserves Inv (intra_set_link key link v).
Proof.
  intros m Hm. unfold intra_set_link, bindS, getS, liftS, putS, lookupR.
  destruct (A m !! key) as [g|] eqn:Eg; [|done].
  pose proof (ml_set_link_intra link v g (inv_intra _ Hm _ _ Eg)) as Hg'.
  destruct (ML.set_link link v g) as [g' r]. simpl in Hg'.
  by apply (Inv_set_A_insert _ _ g).
Qed.

#[local] Hint Resolve add_node_inv intra_add_node_inv intra_set_link_inv : preserves.

Lemma intra_setitem_inv key i j v : preserves Inv (intra_setitem key i j v).
Proof. unfold intra_setitem. eauto with preserves. Qed.

#[local] Hint Resolve intra_setitem_inv : preserves.

Lemma set_link_inv link v : preserves Inv (set_link link v).
Proof.
  unfold set_link. apply preserves_get_all. intros m0.
  apply preserves_bind; [apply preserves_lift|]. intros d.
  repeat case_match; eauto with preserves.
Qed.

#[local] Hint Resolve set_link_inv : preserves.

Lemma setitem_inv item v : preserves Inv (setitem item v).
Proof.
  unfold setitem. apply preserves_get_all. intros m0.
  apply preserves_bind; [apply preserves_lift|]. intros link.
  eauto with preserves.
Qed.

Lemma reachable_inv m : mx_reachable m -> Inv m.
Proof.
  induction 1.
  - unfold init. split; try unfold keys_registered; proj_simpl.
    + by rewrite length_replicate.
    + intros key g. by rewrite lookup_empty.
    + intros key g. by rewrite lookup_empty.
  - by apply add_node_inv.
  - by apply setitem_inv.
Qed.


Lemma intra_add_node_ok key node m g :
  Inv m -> A m !! key = Some g ->
  snd (intra_add_node key node 0 m) = inr tt /\
  Inv (fst (intra_add_node key node 0 m)) /\
  is_Some (A (fst (intra_add_node key node 0 m)) !! key).
Proof.
  intros Hm Hg. pose proof (intra_add_node_inv key node 0 m Hm) as Hinv.
  split; [|split; [done|]];
  unfold intra_add_node, bindS, getS, liftS, putS, retS, lookupR in *.
  all: destruct (lookup_lt_is_Some_2 (slices m) 0) as [s Hs];
       [rewrite (inv_len _ Hm); lia|].
  all: destruct (add_node_extends node 0 m s Hm Hs) as (Hok & Hext & _).
  all: rewrite Hok in *; proj_simpl.
  all: rewrite (ext_old _ _ Hext key g Hg) in *.
  all: destruct (inv_intra _ Hm _ _ Hg) as (_ & Hl & _).
  all: destruct (lookup_lt_is_Some_2 (ML.slices g) 0) as [s0 Hs0]; [lia|].
  all: unfold ML.add_node in *; rewrite Hs0 in *; proj_simpl.
  all: destruct (fullyInterconnected _); proj_simpl; try done.
  all: by rewrite lookup_insert_eq.
Qed.

Lemma intra_set_link_ok key m g i j v :
  Inv m -> A m !! key = Some g -> i <> j ->
  snd (intra_set_link key [i; j] v m) = inr tt.
Proof.
  intros Hm Hg Hij. unfold intra_set_link, bindS, getS, liftS, putS, lookupR.
  rewrite Hg. destruct (inv_intra _ Hm _ _ Hg) as (Hd & _ & Hs).
  pose proof (MLFacts.set_link_ok [i; j] v g [i] [j] Hd Hs eq_refl) as Hok.
  destruct (ML.set_link [i; j] v g) as [g' r]. simpl in *. rewrite Hok; [done|].
  by intros [= ?].
Qed.

Lemma intra_setitem_ok key m i j v :
  Inv m -> is_Some (A m !! key) -> i <> j ->
  snd (intra_setitem key i j v m) = inr tt.
Proof.
  intros Hm [g Hg] Hij. unfold intra_setitem.
  destruct (intra_add_node_ok key i m g Hm Hg) as (Hok1 & Hm1 & [g1 Hg1]).
  destruct (intra_add_node key i 0 m) as [m1 r1] eqn:E1. simpl in *. subst r1.
  rewrite (bindS_inr _ _ _ m1 tt E1).
  destruct (intra_add_node_ok key j m1 g1 Hm1 Hg1) as (Hok2 & Hm2 & [g2 Hg2]).
  destruct (intra_add_node key j 0 m1) as [m2 r2] eqn:E2. simpl in *. subst r2.
  rewrite (bindS_inr _ _ _ m2 tt E2).
  by apply (intra_set_link_ok _ _ g2).
Qed.

(** The two node labels of a link whose halves differ in aspect 0. *)
Lemma aspect0_nodes asp link D :
  get_edge_inter_aspects asp link = inr D -> In 0%nat D ->
  exists i j, link !! 0%nat = Some i /\ link !! 1%nat = Some j /\ i <> j.
Proof.
  intros H Hin. apply (inter_aspects_spec _ _ _ H) in Hin as (_ & i & j & Hi & Hj & Hij).
  by exists i, j.
Qed.

Lemma set_link_success m link v :
  Inv m -> get_edge_inter_aspects (aspects m) link = inr [0%nat] ->
  is_Some (A m !! evens (drop 2 link)) ->
  snd (set_link link v m) = inr tt.
Proof.
  intros Hm HD HA. destruct (aspect0_nodes _ _ _ HD) as (i & j & Hi & Hj & Hij); [by left|].
  unfold set_link, bindS, getS, liftS. rewrite HD.
  destruct HA as [g Hg]. unfold lookupR, nthR. rewrite Hg, Hi, Hj.
  apply intra_setitem_ok; [done | by eexists | done].
Qed.

Lemma set_link_failure m link v e :
  Inv m -> snd (set_link link v m) = inl e -> fst (set_link link v m) = m.
Proof.
  intros Hm. unfold set_link, bindS, getS, liftS.
  destruct (get_edge_inter_aspects (aspects m) link) as [e'|D] eqn:HD; [done|].
  destruct D as [|[|k] [|d D]]; try done.
  unfold lookupR, nthR.
  destruct (A m !! evens (drop 2 link)) as [g|] eqn:Hg; [|done].
  destruct (aspect0_nodes _ _ _ HD) as (i & j & Hi & Hj & Hij); [by left|].
  rewrite Hi, Hj. intros Hf. exfalso.
  rewrite (intra_setitem_ok _ m i j v Hm) in Hf; [done | by eexists | done].
Qed.

End MXFacts.

Section SwapFacts.
Context {A : Type}.

Lemma drop2_swap_pairs (l : list A) : drop 2 (swap_pairs l) = swap_pairs (drop 2 l).
Proof. by destruct l as [|a [|b t]]. Qed.

Lemma evens_tail_eq (l : list A) :
  (forall d, l !! (2 * d)%nat = l !! (2 * d + 1)%nat) -> evens (tail l) = evens l.
Proof.
  remember (length l) as n eqn:E. revert l E.
  induction n as [n IH] using lt_wf_ind.
  intros [|a [|b t]] E H; try done.
  - specialize (H 0%nat). done.
  - pose proof (H 0%nat) as H0. simpl in H0. injection H0 as <-.
    cbn [tail]. rewrite !evens_cons. cbn [tail]. f_equal.
    apply (IH (length t)); [simpl in E; lia | done |].
    intros d. specialize (H (S d)).
    replace (2 * S d)%nat with (S (S (2 * d))) in H by lia.
    replace (S (S (2 * d)) + 1)%nat with (S (S (2 * d + 1))) in H by lia.
    done.
Qed.
End SwapFacts.


Lemma ml_get_link_lookup2 g link n1 n2 :
  link_to_nodes link = inr (n1, n2) ->
  MultilayerNetwork.get_link g link
  = inr (default (MultilayerNetwork.noEdge g) (lookup2 (MultilayerNetwork.net g) n1 n2)).
Proof.
  intros H. unfold MultilayerNetwork.get_link. rewrite H. cbn [bindR].
  unfold lookup2. destruct (MultilayerNetwork.net g !! n1) as [r|]; [|done].
  simpl. by destruct (r !! n2).
Qed.

Lemma inter_aspects_swap asp link :
  (2 * S asp <= length link)%nat ->
  MultiplexNetwork.get_edge_inter_aspects asp (swap_pairs link)
  = MultiplexNetwork.get_edge_inter_aspects asp link.
Proof.
  intros Hl. unfold MultiplexNetwork.get_edge_inter_aspects. f_equal.
  apply mapR_ext. intros d Hd%in_seq. cbv beta.
  destruct (lookup_swap_pairs_even link d) as [E1 E2]; [lia|].
  unfold nthR. rewrite E1, E2.
  destruct (lookup_lt_is_Some_2 link (2 * d)%nat) as [a Ha]; [lia|].
  destruct (lookup_lt_is_Some_2 link (2 * d + 1)%nat) as [b Hb]; [lia|].
  rewrite Ha, Hb. cbn [bindR]. do 3 f_equal. apply bool_decide_ext. naive_solver.
Qed.

Lemma layer_key_swap asp link :
  length link = (2 * S asp)%nat ->
  MultiplexNetwork.get_edge_inter_aspects asp link = inr [0%nat] ->
  evens (drop 2 (swap_pairs link)) = evens (drop 2 link).
Proof.
  intros Hl HD. rewrite drop2_swap_pairs.
  destruct (evens_swap_pairs asp (drop 2 link)) as [E1 _]; [rewrite length_drop; lia|].
  rewrite E1. apply evens_tail_eq. intros d. rewrite !lookup_drop.
  destruct (decide (d < asp)%nat) as [Hd|Hd].
  - destruct (lookup_lt_is_Some_2 link (2 + 2 * d)%nat) as [a Ha]; [lia|].
    destruct (lookup_lt_is_Some_2 link (2 + (2 * d + 1))%nat) as [b Hb]; [lia|].
    rewrite Ha, Hb. destruct (decide (a = b)) as [->|Hab]; [done|].
    assert (HIn : In (S d) [0%nat]).
    { apply (inter_aspects_spec _ _ _ HD). split; [lia|]. exists a, b.
      replace (2 * S d)%nat with (2 + 2 * d)%nat by lia.
      replace (2 * S d + 1)%nat with (2 + (2 * d + 1))%nat by lia. done. }
    destruct HIn as [?|[]]. lia.
  - rewrite !lookup_ge_None_2 by lia. done.
Qed.





Lemma LInt_in_range k n :
  LInt k ∈ (list_to_set (LInt <$> seqZ 1 n) : gset Label) <-> 1 <= k < 1 + n.
Proof.
  rewrite elem_of_list_to_set, list_elem_of_fmap. split.
  - intros (y & [= ->] & Hy). by apply elem_of_seqZ in Hy.
  - intros Hk. exists k. split; [done|]. by apply elem_of_seqZ.
Qed.

Lemma div2_eq (i a : nat) : (i / 2 = a <-> i = 2 * a \/ i = 2 * a + 1)%nat.
Proof.
  pose proof (Nat.div_mod_eq i 2). pose proof (Nat.mod_upper_bound i 2).
  split; [intros <-; lia|]. intros [-> | ->].
  - rewrite Nat.mul_comm, Nat.div_mul; lia.
  - rewrite Nat.mul_comm, Nat.div_add_l by lia. simpl. lia.
Qed.

Lemma evens_interleave (n1 n2 : list Label) :
  length n1 = length n2 ->
  evens (interleave n1 n2) = n1 /\ evens (tail (interleave n1 n2)) = n2.
Proof.
  revert n2. induction n1 as [|a t1 IH]; intros [|b t2] Hl; simpl in Hl; try lia.
  - done.
  - destruct (IH t2) as [E1 E2]; [lia|]. cbn [interleave tail].
    rewrite !evens_cons. cbn [tail]. by rewrite E1, E2.
Qed.

Lemma interleave_evens (n : nat) (l : list Label) :
  length l = (2 * n)%nat -> interleave (evens l) (evens (tail l)) = l.
Proof.
  revert l. induction n as [|n IH]; intros l Hl.
  - by destruct l; [|simpl in Hl; lia].
  - destruct l as [|a [|b t]]; simpl in Hl; try lia.
    cbn [tail]. rewrite !evens_cons. cbn [tail interleave]. rewrite IH; [done|lia].
Qed.

Lemma length_evens_even (n : nat) (l : list Label) :
  length l = (2 * n)%nat -> length (evens l) = n /\ length (evens (tail l)) = n.
Proof.
  revert l. induction n as [|n IH]; intros l Hl.
  - by destruct l; [|simpl in Hl; lia].
  - destruct l as [|a [|b t]]; simpl in Hl; try lia.
    cbn [tail]. rewrite !evens_cons. cbn [tail length].
    destruct (IH t) as [E1 E2]; [lia|]. lia.
Qed.

Lemma length_short_link (item : list Label) :
  (2 <= length item)%nat ->
  length (short_link_to_link item) = (2 * length item - 2)%nat.
Proof.
  intros Hl. unfold short_link_to_link. rewrite length_app, length_take.
  assert (forall l : list Label, length (flat_map (fun k => [k; k]) l) = (2 * length l)%nat)
    as Hf.
  { induction l as [|x l IHl]; simpl; [done|]. rewrite IHl. lia. }
  rewrite Hf, length_drop. lia.
Qed.

Section IndexFacts.
Context {T : Type} `{Net T}.

Lemma getitem_link (g : T) (link : list Label) :
  length link = (2 * S (n_aspects g))%nat ->
  getitem g link = (let? w := n_get_link g link in inr (GWeight w)).
Proof.
  intros Hl. unfold getitem. rewrite decide_False by lia. by rewrite decide_True by lia.
Qed.

(** The recursive [self[...]] of the [len(item)==d+1] branch takes the
    link branch. *)
Lemma getitem_expanded (g : T) (item : list Label) :
  length item = (S (n_aspects g) + 1)%nat ->
  getitem g (short_link_to_link item)
  = (let? w := n_get_link g (short_link_to_link item) in inr (GWeight w)).
Proof.
  intros Hl. apply getitem_link. rewrite length_short_link; lia.
Qed.
Lemma getitem_short_eq (g : T) (item : list Label) :
  (1 <= n_aspects g)%nat -> length item = (S (n_aspects g) + 1)%nat ->
  getitem g item = getitem g (short_link_to_link item).
Proof.
  intros Ha Hl. rewrite getitem_expanded by done. unfold getitem.
  rewrite decide_False by lia. rewrite decide_False by lia.
  by rewrite decide_True by done.
Qed.
End IndexFacts.

Lemma map_fmap_eq {A B} (f : A -> B) (l : list A) : map f l = f <$> l.
Proof. induction l as [|x l IH]; simpl; [done|]. by rewrite IH. Qed.

Lemma filterR_spec {A} (p : A -> Res bool) (l ys : list A) :
  filterR p l = inr ys ->
  (forall x, x ∈ ys <-> x ∈ l /\ p x = inr true) /\ (NoDup l -> NoDup ys).
Proof.
  revert ys. induction l as [|x l IH]; intros ys Hf; simpl in Hf.
  - injection Hf as <-. split; [|done]. intros y. split; [intros Hy; by apply elem_of_nil in Hy|].
    intros [Hy _]. by apply elem_of_nil in Hy.
  - destruct (p x) as [e|b] eqn:Ep; [done|]. cbn [bindR] in Hf.
    destruct (filterR p l) as [e|ys'] eqn:El; [done|]. cbn [bindR] in Hf.
    injection Hf as <-. destruct (IH ys' eq_refl) as [Hm Hn]. split.
    + intros y. destruct b.
      * rewrite elem_of_cons, Hm, elem_of_cons. split.
        -- intros [->|[? ?]]; [by split; [left|]|]. split; [by right|done].
        -- intros [[->|?] ?]; [by left|]. right. done.
      * rewrite Hm, elem_of_cons. split.
        -- intros [? ?]. split; [by right|done].
        -- intros [[->|?] ?]; [congruence|]. done.
    + intros Hnd. apply NoDup_cons in Hnd as [Hx Hnd]. destruct b.
      * apply NoDup_cons. split; [|by apply Hn]. rewrite Hm. intros [? _]. done.
      * by apply Hn.
Qed.

Lemma dims_match_go (n : list Label) (ds : list (option Label)) (k : nat) bs :
  mapR (fun p : nat * option Label =>
          match p.2 with
          | None => inr true
          | Some v => let? x := nthR n p.1 in inr (bool_decide (x = v))
          end) (zip (seq k (length ds)) ds) = inr bs ->
  (forallb id bs = true <->
   forall i v, ds !! i = Some (Some v) -> n !! (k + i)%nat = Some v).
Proof.
  revert k bs. induction ds as [|o ds IH]; intros k bs Hm; simpl in Hm.
  - injection Hm as <-. simpl. split; [|done]. intros _ i v Hi. by rewrite lookup_nil in Hi.
  - destruct o as [v|]; cbn [fst snd] in Hm.
    + unfold nthR in Hm. destruct (n !! k) as [x|] eqn:Ex; [|done]. cbn [bindR] in Hm.
      destruct (mapR _ (zip (seq (S k) (length ds)) ds)) as [e|bs'] eqn:Er; [done|].
      cbn [bindR] in Hm. injection Hm as <-. specialize (IH (S k) bs' Er).
      cbn [forallb id]. rewrite andb_true_iff, IH, bool_decide_eq_true. split.
      * intros [-> Hr] [|i] w Hi; simpl in Hi.
        -- injection Hi as <-. by rewrite Nat.add_0_r.
        -- rewrite Nat.add_succ_r. by apply Hr.
      * intros Hall. split.
        -- specialize (Hall 0%nat v eq_refl). rewrite Nat.add_0_r, Ex in Hall. congruence.
        -- intros i w Hi. replace (S k + i)%nat with (k + S i)%nat by lia. by apply (Hall (S i)).
    + cbn [bindR] in Hm.
      destruct (mapR _ (zip (seq (S k) (length ds)) ds)) as [e|bs'] eqn:Er; [done|].
      cbn [bindR] in Hm. injection Hm as <-. specialize (IH (S k) bs' Er).
      cbn [forallb id]. rewrite IH. split.
      * intros Hr [|i] w Hi; simpl in Hi; [done|]. rewrite Nat.add_succ_r. by apply Hr.
      * intros Hall i w Hi. replace (S k + i)%nat with (k + S i)%nat by lia. by apply (Hall (S i)).
Qed.

Lemma dims_match_spec ds n b :
  MultilayerNetwork.dims_match ds n = inr b ->
  (b = true <-> forall i v, ds !! i = Some (Some v) -> n !! i = Some v).
Proof.
  unfold MultilayerNetwork.dims_match. intros H.
  destruct (mapR _ _) as [e|bs] eqn:Hm; [done|]. cbn [bindR] in H. injection H as <-.
  apply (dims_match_go n ds 0) in Hm. done.
Qed.

Module MLMore.
Import MultilayerNetwork Reach MLOk.

Lemma set_link_lookup_self link value g n1 n2 :
  link_to_nodes link = inr (n1, n2) ->
  lookup2 (net (fst (set_link link value g))) n1 n2
  = if decide (value = noEdge g) then None else Some value.
Proof.
  intros Hl. unfold set_link. rewrite Hl.
  case_decide as Hv.
  - destruct (net g !! n1) as [m1|] eqn:E1.
    2:{ cbn. unfold lookup2. by rewrite E1. }
    destruct (m1 !! n2) as [x|] eqn:E2.
    2:{ cbn. unfold lookup2. rewrite E1. done. }
    assert (D : lookup2 (<[n1 := delete n2 m1]> (net g)) n1 n2 = None).
    { rewrite (lookup2_del _ _ _ m1) by done. by rewrite decide_True. }
    destruct (directed g); [done|].
    destruct (<[n1 := delete n2 m1]> (net g) !! n2) as [m2|] eqn:E3; [|done].
    destruct (m2 !! n1) as [y|] eqn:E4; [|done]. simpl.
    rewrite (lookup2_del _ _ _ m2) by done. case_decide; done.
  - simpl. destruct (directed g).
    + rewrite lookup2_put. by rewrite decide_True.
    + rewrite lookup2_put, lookup2_put. repeat case_decide; naive_solver.
Qed.

Lemma set_link_lookup2_inv link value g n1 n2 u v x :
  link_to_nodes link = inr (n1, n2) ->
  lookup2 (net (fst (set_link link value g))) u v = Some x ->
  lookup2 (net g) u v = Some x \/
  (value <> noEdge g /\ x = value /\ ((u = n1 /\ v = n2) \/ (u = n2 /\ v = n1))).
Proof.
  intros Hl. unfold set_link. rewrite Hl.
  case_decide as Hv.
  - destruct (net g !! n1) as [m1|] eqn:E1; [|by left].
    destruct (m1 !! n2) as [y|] eqn:E2; [|by left].
    assert (D : forall u v, lookup2 (<[n1 := delete n2 m1]> (net g)) u v = Some x ->
                            lookup2 (net g) u v = Some x).
    { intros u' v'. rewrite (lookup2_del _ _ _ m1) by done. by case_decide. }
    destruct (directed g); [cbn; intros Hx; left; by apply D|].
    destruct (<[n1 := delete n2 m1]> (net g) !! n2) as [m2|] eqn:E3;
      [|cbn; intros Hx; left; by apply D].
    destruct (m2 !! n1) as [z|] eqn:E4; [|cbn; intros Hx; left; by apply D].
    cbn. rewrite (lookup2_del _ _ _ m2) by done. case_decide; [done|].
    intros Hx. left. by apply D.
  - cbn. destruct (directed g).
    + rewrite lookup2_put, MLFacts.lookup2_ensure, MLFacts.lookup2_ensure.
      case_decide as E.
      * intros [= <-]. right. naive_solver.
      * by left.
    + rewrite lookup2_put, lookup2_put, MLFacts.lookup2_ensure, MLFacts.lookup2_ensure.
      repeat case_decide; intros Hx; try (by left); right; naive_solver.
Qed.

Lemma add_node_net node aspect g :
  net (fst (add_node node aspect g)) = net g /\
  aspects (fst (add_node node aspect g)) = aspects g /\
  noEdge (fst (add_node node aspect g)) = noEdge g /\
  directed (fst (add_node node aspect g)) = directed g.
Proof. unfold add_node. by case_match. Qed.

Lemma add_node_len node aspect g :
  length (slices (fst (add_node node aspect g))) = length (slices g).
Proof. unfold add_node. case_match; [|done]. simpl. by rewrite length_insert. Qed.

Lemma reg_loop g link l :
  length (slices g) = S (aspects g) -> length link = (2 * S (aspects g))%nat ->
  (forall i, In i l -> (i < length link)%nat) ->
  snd (forS l (reg_body link) g) = inr tt /\
  net (fst (forS l (reg_body link) g)) = net g /\
  aspects (fst (forS l (reg_body link) g)) = aspects g /\
  noEdge (fst (forS l (reg_body link) g)) = noEdge g /\
  directed (fst (forS l (reg_body link) g)) = directed g /\
  length (slices (fst (forS l (reg_body link) g))) = length (slices g) /\
  (forall a s x, slices g !! a = Some s -> x ∈ s ->
     exists s', slices (fst (forS l (reg_body link) g)) !! a = Some s' /\ x ∈ s') /\
  (forall i x, In i l -> link !! i = Some x ->
     exists s', slices (fst (forS l (reg_body link) g)) !! (i / 2)%nat = Some s' /\ x ∈ s').
Proof.
  revert g. induction l as [|i l IH]; intros g Hs Hlen Hl.
  - do 6 (split; [done|]). split; [eauto|]. intros ? ? [].
  - assert (Hi : (i < length link)%nat) by (apply Hl; by left).
    destruct (lookup_lt_is_Some_2 link i Hi) as [x Hx].
    assert (Hlt : (i / 2 < length (slices g))%nat).
    { rewrite Hs. apply Nat.Div0.div_lt_upper_bound. lia. }
    destruct (lookup_lt_is_Some_2 (slices g) (i / 2)%nat Hlt) as [s Hsi].
    set (g1 := fst (add_node x (i / 2) g)).
    assert (Hb : reg_body link i g = (g1, inr tt)).
    { unfold reg_body, bindS, liftS, nthR. rewrite Hx. unfold g1, add_node.
      rewrite Hsi. done. }
    assert (Hstep : forS (i :: l) (reg_body link) g = forS l (reg_body link) g1).
    { simpl. unfold bindS at 1. by rewrite Hb. }
    rewrite Hstep.
    destruct (add_node_net x (i / 2) g) as (En & Ea & Ee & Ed).
    pose proof (add_node_len x (i / 2) g) as El.
    fold g1 in En, Ea, Ee, Ed, El.
    destruct (IH g1) as (R & N & A & E & D & L & Old & New).
    { rewrite El, Ea. done. } { by rewrite Ea. } { intros j Hj. apply Hl. by right. }
    assert (G1 : slices g1 = <[(i / 2)%nat := {[x]} ∪ s]> (slices g)).
    { unfold g1, add_node. by rewrite Hsi. }
    assert (Old1 : forall a s0 y, slices g !! a = Some s0 -> y ∈ s0 ->
                   exists s1, slices g1 !! a = Some s1 /\ y ∈ s1).
    { intros a s0 y Ha Hy. rewrite G1. destruct (decide (a = i / 2)%nat) as [->|Hne].
      - exists ({[x]} ∪ s). rewrite list_lookup_insert_eq by done.
        rewrite Hsi in Ha. injection Ha as <-. split; [done|]. set_solver.
      - exists s0. rewrite list_lookup_insert_ne by done. done. }
    split; [done|]. split; [congruence|]. split; [congruence|]. split; [congruence|].
    split; [congruence|]. split; [congruence|]. split.
    + intros a s0 y Ha Hy. destruct (Old1 a s0 y Ha Hy) as (s1 & Ha1 & Hy1).
      by apply (Old a s1).
    + intros j y [<-|Hj] Hy.
      * rewrite Hx in Hy. injection Hy as <-.
        apply (Old (i / 2)%nat ({[x]} ∪ s)); [|set_solver].
        rewrite G1. by apply list_lookup_insert_eq.
      * by apply New.
Qed.

(** [__setitem__] on a store whose slices match its aspects: either it
    raises the arity error and changes nothing, or it runs [_set_link] on
    the expanded link after a registration loop that succeeds. *)
Lemma setitem_cases g item w :
  length (slices g) = S (aspects g) ->
  (length item <> (2 * S (aspects g))%nat /\ length item <> (S (aspects g) + 1)%nat /\
   setitem item w g = (g, inl (KeyError "Invalid number of indices."))) \/
  exists link,
    ((length item = (2 * S (aspects g))%nat /\ link = item) \/
     (length item <> (2 * S (aspects g))%nat /\ length item = (S (aspects g) + 1)%nat /\
      link = short_link_to_link item)) /\
    length link = (2 * S (aspects g))%nat /\
    getitem g item = getitem g link /\
    setitem item w g = set_link link w (fst (forS (seq 0 (2 * S (aspects g))) (reg_body link) g)).
Proof.
  intros Hs.
  assert (Hl : forall link, length link = (2 * S (aspects g))%nat ->
    (do! _ <- forS (seq 0 (2 * S (aspects g)))
                (fun i => do! l <- liftS (nthR link i) in add_node l (i / 2)) in
     set_link link w) g
    = set_link link w (fst (forS (seq 0 (2 * S (aspects g))) (reg_body link) g))).
  { intros link Hlen.
    destruct (reg_loop g link (seq 0 (2 * S (aspects g))) Hs Hlen) as (R & _).
    { intros i Hi%in_seq. lia. }
    unfold bindS at 1. fold (reg_body link).
    destruct (forS _ (reg_body link) g) as [g1 r] eqn:E. simpl in R. by subst r. }
  assert (Eq : setitem item w g =
    match (if decide (length item = 2 * S (aspects g))%nat then inr item
           else if decide (length item = S (aspects g) + 1)%nat
                then inr (short_link_to_link item)
                else inl (KeyError "Invalid number of indices.")) with
    | inl e => (g, inl e)
    | inr link =>
        (do! _ <- forS (seq 0 (2 * S (aspects g)))
                 (fun i => do! l <- liftS (nthR link i) in add_node l (i / 2)) in
         set_link link w) g
    end) by reflexivity.
  rewrite Eq.
  destruct (decide (length item = 2 * S (aspects g))%nat) as [E1|E1].
  - right. exists item. split; [by left|]. split; [done|]. split; [done|]. by apply Hl.
  - destruct (decide (length item = S (aspects g) + 1)%nat) as [E2|E2].
    + right. exists (short_link_to_link item).
      assert (L : length (short_link_to_link item) = (2 * S (aspects g))%nat).
      { rewrite length_short_link; lia. }
      split; [by right|]. split; [done|]. split.
      * apply (getitem_short_eq (T:=t) g item); simpl; lia.
      * by apply Hl.
    + left. done.
Qed.

Lemma link_to_nodes_len link k :
  length link = (2 * S k)%nat ->
  exists n1 n2, link_to_nodes link = inr (n1, n2) /\
    length n1 = S k /\ length n2 = S k /\ interleave n1 n2 = link.
Proof.
  intros Hl. destruct link as [|i [|j rest]]; simpl in Hl; try lia.
  destruct (length_evens_even k rest) as [E1 E2]; [lia|].
  eexists _, _. split; [reflexivity|]. simpl. split; [lia|]. split; [lia|].
  f_equal. f_equal. apply (interleave_evens k). lia.
Qed.

Lemma set_link_frame link value g n1 n2 u v :
  link_to_nodes link = inr (n1, n2) ->
  (u, v) <> (n1, n2) -> (directed g = true \/ (u, v) <> (n2, n1)) ->
  lookup2 (net (fst (set_link link value g))) u v = lookup2 (net g) u v.
Proof.
  intros Hl H1 H2. unfold set_link. rewrite Hl.
  case_decide as Hv.
  - destruct (net g !! n1) as [m1|] eqn:E1; [|done].
    destruct (m1 !! n2) as [y|] eqn:E2; [|done].
    assert (D : lookup2 (<[n1 := delete n2 m1]> (net g)) u v = lookup2 (net g) u v).
    { rewrite (lookup2_del _ _ _ m1) by done. case_decide; naive_solver. }
    destruct (directed g) eqn:Ed; [done|].
    destruct H2 as [H2|H2]; [discriminate|].
    destruct (<[n1 := delete n2 m1]> (net g) !! n2) as [m2|] eqn:E3; [|done].
    destruct (m2 !! n1) as [z|] eqn:E4; [|done].
    cbn. rewrite (lookup2_del _ _ _ m2) by done. case_decide; naive_solver.
  - cbn. destruct (directed g) eqn:Ed.
    + rewrite lookup2_put, MLFacts.lookup2_ensure, MLFacts.lookup2_ensure.
      case_decide; naive_solver.
    + destruct H2 as [H2|H2]; [discriminate|].
      rewrite lookup2_put, lookup2_put, MLFacts.lookup2_ensure, MLFacts.lookup2_ensure.
      repeat case_decide; naive_solver.
Qed.

Lemma add_node_Ok node aspect : preserves Ok (add_node node aspect).
Proof.
  intros g [Hl Hn]. destruct (add_node_net node aspect g) as (En & Ea & Ee & Ed).
  split.
  - by rewrite add_node_len, Ea.
  - unfold net_ok. rewrite En, Ea, Ee. done.
Qed.

Lemma set_link_Ok link w g :
  Ok g -> length link = (2 * S (aspects g))%nat -> Ok (fst (set_link link w g)).
Proof.
  intros [Hl Hn] Hlen.
  destruct (link_to_nodes_len link (aspects g) Hlen) as (n1 & n2 & Ht & L1 & L2 & _).
  destruct (MLFacts.set_link_fields link w g) as (Ea & _ & Ee & Es).
  split.
  - by rewrite Es, Ea.
  - intros u v x Hx. rewrite Ea, Ee.
    destruct (set_link_lookup2_inv link w g n1 n2 u v x Ht Hx)
      as [Ho|(Hw & -> & [[-> ->]|[-> ->]])]; [by apply Hn|done..].
Qed.

Lemma ml_reg_loop_Ok g link :
  Ok g -> length link = (2 * S (aspects g))%nat ->
  snd (forS (seq 0 (2 * S (aspects g))) (reg_body link) g) = inr tt /\
  Ok (fst (forS (seq 0 (2 * S (aspects g))) (reg_body link) g)) /\
  aspects (fst (forS (seq 0 (2 * S (aspects g))) (reg_body link) g)) = aspects g /\
  net (fst (forS (seq 0 (2 * S (aspects g))) (reg_body link) g)) = net g /\
  directed (fst (forS (seq 0 (2 * S (aspects g))) (reg_body link) g)) = directed g /\
  noEdge (fst (forS (seq 0 (2 * S (aspects g))) (reg_body link) g)) = noEdge g.
Proof.
  intros [Hl Hn] Hlen.
  destruct (reg_loop g link (seq 0 (2 * S (aspects g))) Hl Hlen)
    as (R & N & A & E & D & L & _).
  { intros i Hi%in_seq. lia. }
  split; [done|]. split; [|done].
  split; [by rewrite L, A|]. unfold net_ok. rewrite N, A, E. done.
Qed.

Lemma setitem_Ok item w : preserves Ok (setitem item w).
Proof.
  intros g Hg.
  destruct (setitem_cases g item w (ok_len g Hg))
    as [(_ & _ & ->)|(link & _ & Hlen & _ & ->)]; [done|].
  destruct (ml_reg_loop_Ok g link Hg Hlen) as (_ & Hok & Ha & _).
  apply set_link_Ok; [done|]. by rewrite Ha.
Qed.

Lemma ml_reach_Ok g : ml_reachable g -> Ok g.
Proof.
  induction 1.
  - split; simpl; [by rewrite length_replicate|].
    intros u v x Hx. unfold lookup2, init in Hx. cbn [net] in Hx. by rewrite lookup_empty in Hx.
  - by apply add_node_Ok.
  - by apply setitem_Ok.
Qed.

(** [__setitem__] on a store satisfying [Ok], with an item of a valid
    length: the resulting store is [_set_link] of the expanded link, run on
    a store with the same adjacency and configuration. *)
Lemma setitem_valid g item w :
  Ok g ->
  (length item = (2 * S (aspects g))%nat \/ length item = (S (aspects g) + 1)%nat) ->
  exists link g1,
    length link = (2 * S (aspects g))%nat /\
    (length item = (2 * S (aspects g))%nat -> link = item) /\
    getitem g item = getitem g link /\
    (forall h, getitem h item = getitem h link \/ aspects h <> aspects g) /\
    setitem item w g = set_link link w g1 /\
    Ok g1 /\ aspects g1 = aspects g /\ net g1 = net g /\
    directed g1 = directed g /\ noEdge g1 = noEdge g.
Proof.
  intros Hg Hit.
  destruct (setitem_cases g item w (ok_len g Hg))
    as [(E1 & E2 & _)|(link & Hk & Hlen & Hget & ->)]; [lia|].
  destruct (ml_reg_loop_Ok g link Hg Hlen) as (_ & Hok & Ha & Hn & Hd & He).
  exists link, (fst (forS (seq 0 (2 * S (aspects g))) (reg_body link) g)).
  split; [done|]. split; [destruct Hk as [[_ ->]|(E1 & _)]; [done|lia]|]. split; [done|]. split; [|exact (conj eq_refl (conj Hok (conj Ha (conj Hn (conj Hd He)))))].
  intros h. destruct (decide (aspects h = aspects g)) as [Eh|]; [left|by right].
  destruct Hk as [[_ ->]|(E1 & E2 & ->)]; [done|].
  apply (getitem_short_eq (T:=t) h item); simpl; lia.
Qed.

Lemma emit_in getl node ns es p :
  emit getl node ns = inr es -> In p es ->
  exists n, In n ns /\ nodes_to_link node n = inr p.1 /\ getl p.1 = inr p.2.
Proof.
  intros He Hp. unfold emit in He. apply mapR_inr in He.
  destruct (Forall2_In_r _ _ _ _ He Hp) as (n & Hn & Hf).
  exists n. split; [done|].
  destruct (nodes_to_link node n) as [e|l] eqn:El; [done|]. cbn [bindR] in Hf.
  destruct (getl l) as [e|x] eqn:Eg; [done|]. cbn [bindR] in Hf.
  injection Hf as <-. done.
Qed.

Lemma edges_gen_in asp nbrs getl dir sl es p :
  edges_gen asp nbrs getl dir sl = inr es -> In p es ->
  exists node ns n, node_neighbors asp nbrs node = inr ns /\ In n ns /\
    nodes_to_link node n = inr p.1 /\ getl p.1 = inr p.2.
Proof.
  unfold edges_gen. generalize (cart_prod (map elements sl)) as nodes.
  destruct dir.
  - intros nodes. revert es. induction nodes as [|node rest IH]; intros es He Hp.
    + simpl in He. injection He as <-. done.
    + simpl in He.
      destruct (node_neighbors asp nbrs node) as [e|ns] eqn:En; [done|]. cbn [bindR] in He.
      destruct (emit getl node ns) as [e|here] eqn:Eh; [done|]. cbn [bindR] in He.
      destruct (edges_directed asp nbrs getl rest) as [e|later] eqn:El; [done|].
      cbn [bindR] in He. injection He as <-.
      apply in_app_or in Hp as [Hp|Hp].
      * destruct (emit_in getl node ns here p Eh Hp) as (n & Hn & Hl & Hg).
        by exists node, ns, n.
      * by apply (IH later).
  - intros nodes. generalize (∅ : gset (list Label)) as it.
    revert es. induction nodes as [|node rest IH]; intros es it He Hp.
    + simpl in He. injection He as <-. done.
    + simpl in He.
      destruct (node_neighbors asp nbrs node) as [e|ns] eqn:En; [done|]. cbn [bindR] in He.
      destruct (emit getl node _) as [e|here] eqn:Eh; [done|]. cbn [bindR] in He.
      destruct (edges_undirected asp nbrs getl rest _) as [e|later] eqn:El; [done|].
      cbn [bindR] in He. injection He as <-.
      apply in_app_or in Hp as [Hp|Hp].
      * destruct (emit_in getl node _ here p Eh Hp) as (n & Hn & Hl & Hg).
        exists node, ns, n. split; [done|]. split; [|done].
        apply list_elem_of_In, list_elem_of_filter in Hn as [_ Hn].
        by apply list_elem_of_In.
      * by apply (IH later _ El).
Qed.

(** Every pair [edges] lists is a stored entry of a store satisfying
    [Ok]. *)
Lemma edges_stored g es p :
  Ok g -> edges g = inr es -> In p es ->
  exists u v, link_to_nodes p.1 = inr (u, v) /\ lookup2 (net g) u v = Some p.2 /\
    p.2 <> noEdge g /\ get_link g p.1 = inr p.2.
Proof.
  intros [Hl Hn] He Hp.
  destruct (edges_gen_in _ _ _ _ _ es p He Hp) as (node & ns & n & Hns & Hin & Hlk & Hg).
  unfold node_neighbors in Hns.
  destruct (iter_neighbors g node None) as [e|ks] eqn:Ei; [done|]. cbn [bindR] in Hns.
  unfold iter_neighbors in Ei.
  destruct (net g !! node) as [m|] eqn:Em; [|injection Ei as <-; by destruct (aspects g); simpl in Hns; injection Hns as <-].
  injection Ei as <-.
  assert (Hk : exists x, m !! n = Some x).
  { destruct (aspects g) as [|a] eqn:Ea.
    - apply mapR_inr in Hns. destruct (Forall2_In_r _ _ _ _ Hns Hin) as (k & Hk & Hf).
      apply in_map_iff in Hk as ([k' x] & <- & Hkx).
      apply list_elem_of_In, elem_of_map_to_list in Hkx.
      assert (Lk : length k' = 1%nat).
      { rewrite <- Ea. apply (Hn node k' x). unfold lookup2. by rewrite Em. }
      destruct k' as [|y [|]]; simpl in Lk; try lia.
      cbn in Hf. injection Hf as <-. by exists x.
    - injection Hns as <-. apply in_map_iff in Hin as ([k' x] & <- & Hkx).
      exists x. apply elem_of_map_to_list. by apply list_elem_of_In. }
  destruct Hk as [x Hx].
  assert (L2 : lookup2 (net g) node n = Some x) by (unfold lookup2; by rewrite Em).
  destruct (Hn node n x L2) as (Hne & Ln1 & Ln2).
  unfold nodes_to_link in Hlk. rewrite decide_True in Hlk by lia.
  injection Hlk as Hp1.
  assert (Ht : link_to_nodes p.1 = inr (node, n)).
  { rewrite <- Hp1. destruct node as [|a t1]; [simpl in Ln1; lia|].
    destruct n as [|b t2]; [simpl in Ln2; lia|].
    destruct (evens_interleave t1 t2) as [E1 E2]; [simpl in *; lia|].
    cbn [interleave link_to_nodes tail]. by rewrite E1, E2. }
  rewrite (ml_get_link_lookup2 g p.1 node n Ht), L2 in Hg. simpl in Hg.
  injection Hg as <-.
  exists node, n. split; [done|]. split; [done|]. split; [done|].
  rewrite (ml_get_link_lookup2 g p.1 node n Ht), L2. done.
Qed.

Lemma self_loop_nodes (l : list Label) n1 n2 :
  (forall k, l !! (2 * k)%nat = l !! (2 * k + 1)%nat) ->
  link_to_nodes l = inr (n1, n2) -> n1 = n2.
Proof.
  intros H Hl. destruct l as [|i [|j rest]]; try done.
  injection Hl as <- <-. pose proof (H 0%nat) as H0. simpl in H0. injection H0 as <-.
  f_equal. symmetry. apply evens_tail_eq. intros d. specialize (H (S d)).
  replace (2 * S d)%nat with (S (S (2 * d))) in H by lia.
  replace (S (S (2 * d)) + 1)%nat with (S (S (2 * d + 1))) in H by lia.
  done.
Qed.

End MLMore.

Module MXMore.
Import MultiplexNetwork Reach MXInv MXOk MXFacts.

Lemma cart_prod_In {A} (ls : list (list A)) key :
  Forall2 (fun l xs => In l xs) key ls -> In key (cart_prod ls).
Proof.
  induction 1 as [|x xs key ls Hx _ IH]; simpl; [by left|].
  apply in_flat_map. exists x. split; [done|]. by apply in_map.
Qed.

Lemma lookup_evens {A} (l : list A) (a : nat) : evens l !! a = l !! (2 * a)%nat.
Proof.
  revert l. induction a as [|a IH]; intros l.
  - by destruct l as [|x [|y t]].
  - replace (2 * S a)%nat with (S (S (2 * a))) by lia.
    destruct l as [|x [|y t]]; [done| |].
    + simpl. by destruct a.
    + cbn [evens lookup list_lookup]. apply IH.
Qed.

Lemma add_node_complete node aspect : preserves Ok (add_node node aspect).
Proof.
  intros m [Hm Hc]. split; [by apply add_node_inv|].
  destruct (slices m !! aspect) as [s|] eqn:Hs.
  2:{ unfold add_node. by rewrite Hs. }
  rewrite (add_node_eq _ _ _ s Hs). unfold complete, slice_has. proj_simpl.
  intros H1 key Hlen Hreg. rewrite lookup_add_keys.
  case_decide as Hk; [by eexists|].
  apply Hc; [done|done|]. intros a l Hl.
  destruct (Hreg a l Hl) as (s' & Hs' & Hin).
  rewrite (lookup_insert_slices _ _ _ _ s Hs) in Hs'.
  case_decide as E; [|by exists s']. subst aspect. injection Hs' as <-.
  exists s. split; [done|].
  apply elem_of_union in Hin as [Hin|Hin]; [|done].
  apply elem_of_singleton in Hin as ->.
  destruct (decide (node ∈ s)) as [|Hn]; [done|]. exfalso. apply Hk.
  unfold new_keys. rewrite decide_False by done.
  pose proof (inv_len _ Hm) as Hlm.
  case_decide as Ha.
  - apply list_elem_of_In, cart_prod_In.
    apply Forall2_same_length_lookup. split.
    { rewrite length_insert, length_map, length_drop. lia. }
    intros b x xs Hx Hxs. rewrite list_lookup_insert in Hxs.
    case_decide as Eb.
    + destruct Eb as [<- _]. injection Hxs as <-. rewrite Hl in Hx.
      injection Hx as <-. by left.
    + rewrite lookup_map_nat, lookup_drop in Hxs. simpl in Hxs.
      destruct (Hreg b x Hx) as (sb & Hsb & Hxb).
      rewrite (lookup_insert_slices _ _ _ _ s Hs) in Hsb.
      rewrite decide_False in Hsb by (intros [= ->]; apply Eb; split; [done|];
        apply lookup_lt_Some in Hx; rewrite length_map, length_drop; lia).
      rewrite Hsb in Hxs. simpl in Hxs. injection Hxs as <-.
      apply list_elem_of_In. by apply elem_of_elements.
  - apply list_elem_of_singleton.
    assert (aspects m = 1%nat) as E1 by lia.
    destruct key as [|k0 [|k1 key]]; simpl in Hlen; try lia.
    destruct a as [|a]; [|done]. simpl in Hl. by injection Hl as ->.
Qed.

Lemma complete_set_A_insert m key g g' :
  complete m -> A m !! key = Some g -> complete (set_A m (<[key := g']> (A m))).
Proof.
  intros Hc Hg H1 k Hlen Hreg. proj_simpl.
  destruct (decide (k = key)) as [->|Hne]; [rewrite lookup_insert_eq; by eexists|].
  rewrite lookup_insert_ne by done. by apply Hc.
Qed.

Lemma intra_add_node_complete key node aspect : preserves Ok (intra_add_node key node aspect).
Proof.
  intros m0 Hm0. pose proof (add_node_complete node 0 m0 Hm0) as [Hm1 Hc1].
  unfold Ok. split; [by apply intra_add_node_inv, Hm0|].
  unfold intra_add_node, bindS, getS, liftS, putS, retS, lookupR.
  destruct (add_node node 0 m0) as [m1 [e|[]]]; simpl in Hm1, Hc1; [done|].
  destruct (A m1 !! key) as [g|] eqn:Eg; [|done].
  destruct (ML.add_node node aspect g) as [g' [e|[]]].
  - by apply (complete_set_A_insert _ _ g).
  - pose proof (complete_set_A_insert _ _ g g' Hc1 Eg) as Hc2.
    destruct (fullyInterconnected _); [done|]. done.
Qed.

Lemma intra_set_link_complete key link v : preserves Ok (intra_set_link key link v).
Proof.
  intros m [Hm Hc]. split; [by apply intra_set_link_inv|].
  unfold intra_set_link, bindS, getS, liftS, putS, lookupR.
  destruct (A m !! key) as [g|] eqn:Eg; [|done].
  destruct (ML.set_link link v g) as [g' r]. by apply (complete_set_A_insert _ _ g).
Qed.

#[local] Hint Resolve add_node_complete intra_add_node_complete
  intra_set_link_complete : preserves.

Lemma set_link_complete link v : preserves Ok (set_link link v).
Proof.
  unfold set_link, intra_setitem. apply preserves_get_all. intros m0.
  apply preserves_bind; [apply preserves_lift|]. intros d.
  repeat case_match; eauto 10 with preserves.
Qed.

#[local] Hint Resolve set_link_complete : preserves.

Lemma setitem_complete item v : preserves Ok (setitem item v).
Proof.
  unfold setitem. apply preserves_get_all. intros m0.
  apply preserves_bind; [apply preserves_lift|]. intros link.
  eauto with preserves.
Qed.

Lemma mx_reach_Ok m : mx_reachable m -> Ok m.
Proof.
  induction 1.
  - split; [apply reachable_inv, mx_reach_init|].
    intros H1 key Hlen Hreg. exfalso. unfold init in *. proj_simpl.
    destruct key as [|k0 key]; simpl in Hlen; [lia|].
    destruct (Hreg 0%nat k0 eq_refl) as (s & Hs & Hin).
    apply lookup_replicate in Hs as [-> _]. set_solver.
  - by apply add_node_complete.
  - by apply setitem_complete.
Qed.

Lemma mx_reg_loop_Ok link l m : Ok m -> Ok (fst (forS l (reg_body link) m)).
Proof.
  apply preserves_forS. intros i. unfold reg_body. eauto with preserves.
Qed.

Lemma add_node_aspects node aspect m :
  aspects (fst (add_node node aspect m)) = aspects m.
Proof.
  destruct (slices m !! aspect) as [s|] eqn:Hs.
  - by rewrite (add_node_eq _ _ _ s Hs).
  - unfold add_node. by rewrite Hs.
Qed.

Lemma intra_add_node_aspects key node aspect m :
  aspects (fst (intra_add_node key node aspect m)) = aspects m.
Proof.
  pose proof (add_node_aspects node 0 m) as Ha.
  unfold intra_add_node, bindS, getS, liftS, putS, retS, lookupR.
  destruct (add_node node 0 m) as [m1 [e|[]]]; simpl in Ha; [done|].
  destruct (A m1 !! key) as [g|]; [|done].
  destruct (ML.add_node node aspect g) as [g' [e|[]]]; [done|].
  by destruct (fullyInterconnected _).
Qed.

Lemma intra_set_link_eq key l v m g :
  A m !! key = Some g ->
  intra_set_link key l v m
  = (set_A m (<[key := fst (ML.set_link l v g)]> (A m)), snd (ML.set_link l v g)).
Proof.
  intros Hg. unfold intra_set_link, bindS, getS, liftS, putS, lookupR. rewrite Hg.
  by destruct (ML.set_link l v g).
Qed.

(** [A[key][i, j] = v] on an existing intra-layer store succeeds, and the
    store then reads [v] at [(i, j)]. *)
Lemma intra_setitem_result key i j v m g :
  Inv m -> A m !! key = Some g -> i <> j ->
  exists g', snd (intra_setitem key i j v m) = inr tt /\
    aspects (fst (intra_setitem key i j v m)) = aspects m /\
    A (fst (intra_setitem key i j v m)) !! key = Some g' /\
    ML.get_link g' [i; j] = inr v.
Proof.
  intros Hm Hg Hij. unfold intra_setitem.
  destruct (intra_add_node_ok key i m g Hm Hg) as (Hok1 & Hm1 & [g1 Hg1]).
  pose proof (intra_add_node_aspects key i 0 m) as Ha1.
  destruct (intra_add_node key i 0 m) as [m1 r1] eqn:E1. simpl in *. subst r1.
  rewrite (bindS_inr _ _ _ m1 tt E1).
  destruct (intra_add_node_ok key j m1 g1 Hm1 Hg1) as (Hok2 & Hm2 & [g2 Hg2]).
  pose proof (intra_add_node_aspects key j 0 m1) as Ha2.
  destruct (intra_add_node key j 0 m1) as [m2 r2] eqn:E2. simpl in *. subst r2.
  rewrite (bindS_inr _ _ _ m2 tt E2).
  pose proof (intra_set_link_ok key m2 g2 i j v Hm2 Hg2 Hij) as Hok3.
  rewrite (intra_set_link_eq key [i; j] v m2 g2 Hg2) in Hok3 |- *.
  exists (fst (ML.set_link [i; j] v g2)). simpl. split; [done|].
  split; [congruence|]. split; [by rewrite lookup_insert_eq|].
  rewrite (ml_get_link_lookup2 _ [i; j] [i] [j] eq_refl).
  rewrite (MLMore.set_link_lookup_self [i; j] v g2 [i] [j] eq_refl).
  destruct (MLFacts.set_link_fields [i; j] v g2) as (_ & _ & Ee & _).
  case_decide; simpl; congruence.
Qed.

Lemma setitem_full m link w :
  Inv m -> length link = (2 * S (aspects m))%nat ->
  let m1 := fst (forS (seq 0 (2 * S (aspects m))) (reg_body link) m) in
  setitem link w m = set_link link w m1 /\ Inv m1 /\ extends m m1 /\
  (forall a x, slice_has m1 a x <->
     slice_has m a x \/ exists i, In i (seq 0 (2 * S (aspects m))) /\
                                  (i / 2)%nat = a /\ link !! i = Some x).
Proof.
  intros Hm Hlen m1.
  destruct (setitem_loop m link (seq 0 (2 * S (aspects m))) Hm Hlen)
    as (Hok & Hinv & Hext & _ & Hmem).
  { intros i Hi%in_seq. lia. }
  split; [|done].
  unfold setitem, bindS, getS, liftS. cbv zeta. rewrite decide_True by done.
  unfold m1. unfold reg_body in Hok |- *.
  destruct (forS _ _ m) as [m2 r2]. simpl in Hok |- *. by subst r2.
Qed.

Lemma add_node_asp k node aspect :
  preserves (fun m => aspects m = k) (add_node node aspect).
Proof. intros m Hm. by rewrite add_node_aspects. Qed.

Lemma intra_add_node_asp k key node aspect :
  preserves (fun m => aspects m = k) (intra_add_node key node aspect).
Proof. intros m Hm. by rewrite intra_add_node_aspects. Qed.

Lemma intra_set_link_asp k key link v :
  preserves (fun m => aspects m = k) (intra_set_link key link v).
Proof.
  intros m Hm. unfold intra_set_link, bindS, getS, liftS, putS, lookupR.
  destruct (A m !! key) as [g|]; [|done].
  by destruct (ML.set_link link v g).
Qed.

#[local] Hint Resolve add_node_asp intra_add_node_asp intra_set_link_asp : preserves.

Lemma intra_setitem_asp k key i j v :
  preserves (fun m => aspects m = k) (intra_setitem key i j v).
Proof. unfold intra_setitem. eauto with preserves. Qed.

#[local] Hint Resolve intra_setitem_asp : preserves.

Lemma set_link_asp k link v : preserves (fun m => aspects m = k) (set_link link v).
Proof.
  unfold set_link. apply preserves_get_all. intros m0.
  apply preserves_bind; [apply preserves_lift|]. intros d.
  repeat case_match; eauto with preserves.
Qed.

Lemma set_link_aspects link v m : aspects (fst (set_link link v m)) = aspects m.
Proof. by apply set_link_asp. Qed.

Lemma set_link_emptyA m link v : A m = ∅ -> fst (set_link link v m) = m.
Proof.
  intros HA. unfold set_link, bindS at 1, getS. cbn beta iota. unfold bindS at 1, liftS.
  destruct (get_edge_inter_aspects (aspects m) link) as [e|D]; [done|].
  destruct D as [|[|k] [|d D]]; try done.
  unfold bindS, lookupR. rewrite HA, lookup_empty. done.
Qed.

Lemma add_node_EmptyA node aspect : preserves EmptyA (add_node node aspect).
Proof.
  intros m [Hm HA]. split; [by apply add_node_inv|].
  rewrite add_node_aspects. intros H0.
  destruct (slices m !! aspect) as [s|] eqn:Hs.
  2:{ unfold add_node. rewrite Hs. by apply HA. }
  rewrite (add_node_eq _ _ _ s Hs). proj_simpl.
  assert (aspect = 0%nat) as ->.
  { apply lookup_lt_Some in Hs. rewrite (inv_len _ Hm), H0 in Hs. lia. }
  unfold new_keys. case_decide; simpl; by apply HA.
Qed.

Lemma set_link_EmptyA link v : preserves EmptyA (set_link link v).
Proof.
  intros m [Hm HA]. split; [by apply set_link_inv|].
  rewrite set_link_aspects. intros H0.
  rewrite (set_link_emptyA m link v (HA H0)). by apply HA.
Qed.

#[local] Hint Resolve add_node_EmptyA set_link_EmptyA : preserves.

Lemma reach_EmptyA m : mx_reachable m -> EmptyA m.
Proof.
  induction 1.
  - split; [apply reachable_inv, mx_reach_init|]. done.
  - by apply add_node_EmptyA.
  - revert IHmx_reachable. unfold setitem. apply preserves_get_all. intros m0.
    apply preserves_bind; [apply preserves_lift|]. intros link.
    eauto with preserves.
Qed.

Lemma reg_loop_EmptyA link l m : EmptyA m -> EmptyA (fst (forS l (reg_body link) m)).
Proof.
  apply preserves_forS. intros i. unfold reg_body. eauto with preserves.
Qed.

(** A fixed entry of [dims] that differs from the node's label makes
    [_select_dimensions] return before yielding anything. *)
Lemma select_go_mismatch node k ds :
  (k + length ds <= length node)%nat ->
  (exists i v x, ds !! i = Some (Some v) /\ node !! (k + i)%nat = Some x /\ x <> v) ->
  select_go node k ds = inr None.
Proof.
  revert k. induction ds as [|d ds IH]; intros k Hlen (i & v & x & Hd & Hx & Hne); [done|].
  simpl in Hlen. destruct d as [v0|]; simpl.
  - destruct (lookup_lt_is_Some_2 node k) as [x0 Hx0]; [lia|].
    unfold nthR. rewrite Hx0. cbn [bindR].
    destruct (decide (x0 = v0)) as [->|Hne0]; [|done].
    destruct i as [|i].
    + simpl in Hd. injection Hd as ->. rewrite Nat.add_0_r, Hx0 in Hx. congruence.
    + apply IH; [lia|]. exists i, v, x. split; [done|]. split; [|done].
      by replace (S k + i)%nat with (k + S i)%nat by lia.
  - destruct i as [|i]; [done|].
    rewrite IH; [done|lia|]. exists i, v, x. split; [done|]. split; [|done].
    by replace (S k + i)%nat with (k + S i)%nat by lia.
Qed.

Lemma filterR_neq_len (x : Label) l ys :
  filterR (fun n => inr (bool_decide (n <> x))) l = inr ys ->
  NoDup l -> x ∈ l -> length ys = pred (length l).
Proof.
  revert ys. induction l as [|y l IH]; intros ys Hf Hnd Hx; [by apply elem_of_nil in Hx|].
  simpl in Hf. destruct (filterR _ l) as [e|ys'] eqn:El; [done|]. cbn [bindR] in Hf.
  injection Hf as <-. apply NoDup_cons in Hnd as [Hy Hnd].
  destruct (decide (y = x)) as [->|Hne].
  - rewrite bool_decide_false by auto. simpl.
    clear IH Hx. revert ys' El. induction l as [|z l IH']; intros ys' El.
    + by injection El as <-.
    + simpl in El. destruct (filterR _ l) as [e|zs] eqn:El'; [done|]. cbn [bindR] in El.
      injection El as <-. rewrite bool_decide_true.
      * simpl. f_equal. apply NoDup_cons in Hnd as [_ Hnd].
        apply (IH' ltac:(intros H; apply Hy; by right) Hnd zs eq_refl).
      * intros ->. apply Hy. by left.
  - rewrite bool_decide_true by done.
    apply elem_of_cons in Hx as [->|Hx]; [done|].
    simpl. rewrite (IH ys' eq_refl Hnd Hx).
    destruct l; [by apply elem_of_nil in Hx|]. done.
Qed.

Lemma sum_concat {A B} (f : A -> Res Z) (g : A -> Res (list B)) l ks ps :
  mapR f l = inr ks -> mapR g l = inr ps ->
  (forall a k p, In a l -> f a = inr k -> g a = inr p -> k = Z.of_nat (length p)) ->
  sumZ ks = Z.of_nat (length (concat ps)).
Proof.
  intros Hf Hg Hp. apply mapR_inr in Hf, Hg. revert ks ps Hf Hg Hp.
  induction l as [|a l IH]; intros ks ps Hf Hg Hp.
  - inversion Hf; inversion Hg; done.
  - inversion Hf as [|? k ? ks' Hk Hks]; subst. inversion Hg as [|? p ? ps' Hq Hps]; subst.
    simpl. rewrite length_app, Nat2Z.inj_add, <- (IH ks' ps' Hks Hps).
    + rewrite (Hp a k p (or_introl eq_refl) Hk Hq). unfold sumZ. simpl. lia.
    + intros b kb pb Hb. apply Hp. by right.
Qed.

(** The neighbours of one dimension of a fully interconnected store, as many
    as that dimension's degree counts. *)
Lemma full_dim_count m node d k p :
  fullyInterconnected m = true ->
  (forall a s, (1 <= a)%nat -> slices m !! a = Some s -> exists x, node !! a = Some x /\ x ∈ s) ->
  (match d with
   | O => let? q := intra_of m node in ML.get_degree q.1 [q.2] None
   | _ => get_dim_degree m node d end) = inr k ->
  (match d with
   | O => let? q := intra_of m node in
          let? ns := ML.iter_neighbors q.1 [q.2] None in
          let? xs := view_neighbors 0 ns in
          inr (map (fun x => x ++ tail node) xs)
   | _ => iter_dim m node d end) = inr p ->
  k = Z.of_nat (length p).
Proof.
  intros Hfull Hreg Hk Hp. destruct d as [|d].
  - destruct (intra_of m node) as [e|[g i]]; [done|]. cbn [bindR fst snd] in Hk, Hp.
    unfold ML.get_degree in Hk. unfold ML.iter_neighbors in Hp.
    injection Hk as <-.
    destruct (ML.net g !! [i]) as [r|]; cbn [bindR] in Hp.
    + destruct (view_neighbors 0 _) as [e|xs] eqn:Ev; [done|]. injection Hp as <-.
      unfold view_neighbors in Ev. apply mapR_inr, Forall2_length in Ev.
      rewrite length_map, <- Ev, length_map, length_map_to_list. done.
    + by injection Hp as <-.
  - unfold get_dim_degree in Hk. unfold iter_dim in Hp.
    destruct (nthR (couplings m) (pred (S d))) as [e|c]; [done|]. cbn [bindR] in Hk, Hp.
    destruct c as [kind w|g]; [|done].
    destruct (decide (kind = "categorical")) as [Hcat|Hcat].
    + rewrite Hfull in Hk, Hp. unfold nthR in Hk, Hp.
      destruct (slices m !! S d) as [s|] eqn:Hs; [|done]. cbn [bindR] in Hk, Hp.
      injection Hk as <-.
      destruct (Hreg (S d) s ltac:(lia) Hs) as (x & Hx & Hxs).
      rewrite Hx in Hp. cbn [bindR] in Hp.
      destruct (filterR _ (elements s)) as [e|ns] eqn:Ef; [done|]. injection Hp as <-.
      rewrite length_map, (filterR_neq_len x (elements s) ns Ef (NoDup_elements s))
        by (by apply elem_of_elements).
      change (size s) with (length (elements s)).
      assert (0 < length (elements s))%nat.
      { destruct (elements s) eqn:E; [|simpl; lia].
        exfalso. apply (elem_of_nil x). rewrite <- E. by apply elem_of_elements. }
      lia.
    + destruct (decide (kind = "ordinal")) as [Hord|Hord]; [|done].
      destruct (nthR node (S d)) as [e|x]; [done|]. cbn [bindR] in Hk, Hp.
      destruct (label_plus x 1) as [e|up]; [done|]. cbn [bindR] in Hk, Hp.
      destruct (label_plus x (-1)) as [e|down]; [done|]. cbn [bindR] in Hk, Hp.
      rewrite Hfull in Hk, Hp.
      destruct (nthR (slices m) (S d)) as [e|s]; [done|]. cbn [bindR] in Hk, Hp.
      injection Hk as <-. injection Hp as <-.
      rewrite length_app.
      unfold bool_to_Z. repeat case_decide; repeat case_bool_decide; cbn; try lia; done.
Qed.

End MXMore.

Module Claims.
Import MultiplexNetwork Reach.

(** Claim C1, counterexample: on a fully interconnected multiplex store
    with one categorical coupling, [net[a,a,x,y] = 1] raises the KeyError of
    [_set_link] for coupling links, yet [__setitem__] has already registered
    [a], [x] and [y] in the slices and created the intra-layer stores of the
    layers [x] and [y]. *)
Lemma setitem_coupling_link_registers_labels :
  let m := init [Policy "categorical" 1] false 0 true in
  let r := setitem [LStr "a"; LStr "a"; LStr "x"; LStr "y"] 1 m in
  snd r = inl (KeyError "Can only set links in the node dimension.") /\
  slices m = [∅; ∅] /\
  slices (fst r) = [{[LStr "a"]}; {[LStr "x"; LStr "y"]}] /\
  A m = ∅ /\ size (A (fst r)) = 2%nat.
Proof. vm_compute. repeat split. Qed.

(** Claim C1, amended: on a multiplex store built by [__init__],
    [add_node] and [__setitem__], a [__setitem__] of a full-length link that
    raises leaves exactly the registrations [__setitem__] makes before
    calling [_set_link]:
    - [_set_link] itself raises only before mutating anything;
    - the configuration, the node-to-layers map and every existing
      intra-layer store are unchanged, and the only new intra-layer stores
      are fresh empty ones under layer combinations that had none
      ([MXInv.extends]);
    - slice [a] has gained the two labels of aspect [a] of the link. *)
Theorem setitem_error_effects m link w e :
  mx_reachable m -> length link = (2 * S (aspects m))%nat ->
  snd (setitem link w m) = inl e ->
  (forall e', snd (set_link link w m) = inl e' -> fst (set_link link w m) = m) /\
  MXInv.extends m (fst (setitem link w m)) /\
  length (slices (fst (setitem link w m))) = length (slices m) /\
  (forall a s s' l0 l1, slices m !! a = Some s ->
     slices (fst (setitem link w m)) !! a = Some s' ->
     link !! (2 * a)%nat = Some l0 -> link !! (2 * a + 1)%nat = Some l1 ->
     s' = s ∪ {[l0; l1]}).
Proof.
  intros Hr Hlen He. pose proof (MXFacts.reachable_inv m Hr) as Hm.
  split; [intros e'; by apply MXFacts.set_link_failure|].
  destruct (MXFacts.setitem_loop m link (seq 0 (2 * S (aspects m))) Hm Hlen)
    as (Hok & Hinv & Hext & Hl & Hmem).
  { intros i Hi%in_seq. lia. }
  assert (Hs : setitem link w m
               = set_link link w (fst (forS (seq 0 (2 * S (aspects m)))
                                            (MXInv.reg_body link) m))).
  { unfold setitem, bindS, getS, liftS. cbv zeta. rewrite decide_True by done.
    unfold MXInv.reg_body in Hok |- *.
    destruct (forS _ _ m) as [m1 r1]. simpl in Hok |- *. by subst r1. }
  revert Hok Hinv Hext Hl Hmem Hs.
  generalize (forS (seq 0 (2 * S (aspects m))) (MXInv.reg_body link) m).
  intros [m1 r1] Hok Hinv Hext Hl Hmem Hs. cbn [fst snd] in *.
  rewrite Hs in He |- *. rewrite (MXFacts.set_link_failure _ _ _ _ Hinv He).
  split; [done|]. split; [done|].
  intros a s s' l0 l1 Hsa Hsa' Hl0 Hl1. apply set_eq. intros x.
  specialize (Hmem a x). unfold MXInv.slice_has in Hmem.
  rewrite Hsa, Hsa' in Hmem.
  assert (Hb : (2 * a + 1 < length link)%nat) by (by eapply lookup_lt_Some).
  rewrite elem_of_union, elem_of_union, !elem_of_singleton. split.
  - intros Hx. destruct (proj1 Hmem (ltac:(eexists; split; [done|exact Hx])))
      as [(s2 & [= <-] & Hin)|(i & Hi & Hia & Hix)]; [by left|].
    right. apply div2_eq in Hia as [-> | ->]; [left|right]; congruence.
  - intros Hx. destruct (proj2 Hmem) as (s2 & [= <-] & Hin); [|done].
    destruct Hx as [Hx|[-> | ->]]; [left; eauto|right..].
    + exists (2 * a)%nat. split; [apply in_seq; lia|]. split; [apply div2_eq; by left|done].
    + exists (2 * a + 1)%nat. split; [apply in_seq; lia|]. split; [apply div2_eq; by right|done].
Qed.

Lemma setitem_error_effects_witness :
  let m := init [Policy "categorical" 1] false 0 true in
  let link := [LStr "a"; LStr "a"; LStr "x"; LStr "y"] in
  snd (setitem link 1 m) = inl (KeyError "Can only set links in the node dimension.") /\
  slices (fst (setitem link 1 m)) !! 1%nat = Some (∅ ∪ {[LStr "x"; LStr "y"]}).
Proof.
  intros m link. split; [vm_compute; reflexivity|].
  destruct (setitem_error_effects m link 1 (KeyError "Can only set links in the node dimension."))
    as (_ & _ & _ & Hs); [apply mx_reach_init | reflexivity | vm_compute; reflexivity |].
  rewrite (Hs 1%nat ∅ {[LStr "x"; LStr "y"]} (LStr "x") (LStr "y"));
    [reflexivity | reflexivity | vm_compute; reflexivity | reflexivity | reflexivity].
Defined.

(** Claim C2, failing input: [_add_A] gives every intra-layer store the
    default [noEdge = 0], not the parent's.  On a multiplex store with
    [noEdge = 5], writing the sentinel with [net[a,b,x,x] = 5] reads back as
    5 (= noEdge), yet [edges] lists the link with weight 5. *)
Theorem intra_store_keeps_parent_noEdge_weight :
  let m := fst (setitem [LStr "a"; LStr "b"; LStr "x"; LStr "x"] 5
                        (init [Policy "categorical" 1] false 5 true)) in
  noEdge m = 5 /\
  get_link m [LStr "a"; LStr "b"; LStr "x"; LStr "x"] = inr 5 /\
  edges m = inr [([LStr "a"; LStr "b"; LStr "x"; LStr "x"], 5)].
Proof. vm_compute. repeat split. Qed.

(** Claim C3: for every multiplex store and every link whose list [D] of
    differing aspects ([_get_edge_inter_aspects]) does not have exactly one
    element (a self-link, [D = []], or a link differing in two or more
    aspects), [_get_link] returns [noEdge]. *)
Theorem get_link_not_one_aspect m link D :
  get_edge_inter_aspects (aspects m) link = inr D -> length D <> 1%nat ->
  get_link m link = inr (noEdge m).
Proof.
  intros HD Hl. unfold get_link. rewrite HD. simpl.
  destruct D as [|[|d] [|d' D]]; try done; exfalso; by apply Hl.
Qed.

Lemma get_link_not_one_aspect_witness :
  get_edge_inter_aspects 0 [LStr "a"; LStr "a"] = inr [] /\
  get_link (init [] false 0 true) [LStr "a"; LStr "a"] = inr 0.
Proof.
  split; [reflexivity|].
  apply (get_link_not_one_aspect (init [] false 0 true) [LStr "a"; LStr "a"] []);
    [reflexivity | simpl; lia].
Defined.

(** Claim C4: on a multiplex store built by [__init__], [add_node] and
    [__setitem__], for a link whose differing aspects are [D]:
    [_set_link] succeeds only when [D = [0]], and then does succeed when the
    intra-layer store of the link's layer combination exists; [D = []]
    raises [KeyError("No self-links.")] (the self-link error); any other [D]
    (one aspect k > 0, or several aspects) raises
    [KeyError("Can only set links in the node dimension.")] (the read-only
    coupling error). *)
Theorem set_link_differing_aspects m link w D :
  mx_reachable m -> get_edge_inter_aspects (aspects m) link = inr D ->
  (snd (set_link link w m) = inr tt -> D = [0%nat]) /\
  (D = [0%nat] -> is_Some (A m !! evens (drop 2 link)) ->
   snd (set_link link w m) = inr tt) /\
  (D = [] -> snd (set_link link w m) = inl (KeyError "No self-links.")) /\
  (D <> [] -> D <> [0%nat] ->
   snd (set_link link w m) = inl (KeyError "Can only set links in the node dimension.")).
Proof.
  intros Hr HD. pose proof (MXFacts.reachable_inv m Hr) as Hm.
  split; [|split; [|split]].
  - unfold set_link, bindS, getS, liftS. rewrite HD.
    destruct D as [|[|k] [|d D]]; done.
  - intros -> HA. by apply MXFacts.set_link_success.
  - intros ->. unfold set_link, bindS, getS, liftS. by rewrite HD.
  - intros H1 H2. unfold set_link, bindS, getS, liftS. rewrite HD.
    destruct D as [|[|k] [|d D]]; done.
Qed.

Lemma set_link_differing_aspects_witness :
  let m := init [Policy "categorical" 1] false 0 true in
  let link := [LStr "a"; LStr "a"; LStr "x"; LStr "y"] in
  mx_reachable m /\ get_edge_inter_aspects (aspects m) link = inr [1%nat] /\
  snd (set_link link 1 m) = inl (KeyError "Can only set links in the node dimension.").
Proof.
  intros m link. split; [apply mx_reach_init|]. split; [reflexivity|].
  apply (set_link_differing_aspects m link 1 [1%nat]);
    [apply mx_reach_init | reflexivity | discriminate | discriminate].
Defined.




(** Claim C6, failing input: in a multiplex store that is not fully
    interconnected, with an ordinal coupling, [_get_dim_degree] looks up
    [supernode[:aspect]+(up,)+...] in [_nodeToLayers], whose entries are
    layer tuples without the node, while [_iter_dim] looks up
    [supernode[1:aspect]+(up,)+...].  For the node [(a,1)], with neighbour
    [b] in layer 1 and [a] also present in layer 2, [iter_neighbors] yields
    two coordinates whose links both weigh 1, but the degree is 1 and the
    strength is 1. *)
Theorem dim_degree_ordinal_partial_miscounts :
  let m := fst (setitem [LStr "a"; LStr "b"; LInt 2; LInt 2] 1
               (fst (setitem [LStr "a"; LStr "b"; LInt 1; LInt 1] 1
                     (init [Policy "ordinal" 1] false 0 false)))) in
  get_degree m [LStr "a"; LInt 1] None = inr 1 /\
  iter_neighbors m [LStr "a"; LInt 1] None = inr [[LStr "b"; LInt 1]; [LStr "a"; LInt 2]] /\
  get_link m [LStr "a"; LStr "b"; LInt 1; LInt 1] = inr 1 /\
  get_link m [LStr "a"; LStr "a"; LInt 1; LInt 2] = inr 1 /\
  get_strength m [LStr "a"; LInt 1] None = inr 1.
Proof. vm_compute. repeat split. Qed.

(** Claim C7: in a fully interconnected multiplex store, for an aspect
    [k > 0]: with a categorical coupling on [k], the coupling degree
    [_get_dim_degree] of every node coordinate is the number of labels of
    slice [k] minus 1; with an ordinal coupling on [k] and slice [k] equal to
    [{1, ..., n}], [n >= 2], a coordinate whose label at [k] is [l] in
    [1..n] has coupling degree 2 when [1 < l < n] and 1 when [l] is 1 or
    [n]. *)
Theorem coupling_degree_fully_interconnected m node aspect :
  fullyInterconnected m = true -> (0 < aspect)%nat ->
  (forall w s, couplings m !! pred aspect = Some (Policy "categorical" w) ->
     slices m !! aspect = Some s ->
     get_dim_degree m node aspect = inr (Z.of_nat (size s) - 1)) /\
  (forall w n l, couplings m !! pred aspect = Some (Policy "ordinal" w) ->
     slices m !! aspect = Some (list_to_set (LInt <$> seqZ 1 n)) -> 2 <= n ->
     node !! aspect = Some (LInt l) -> 1 <= l <= n ->
     get_dim_degree m node aspect = inr (if decide (1 < l < n) then 2 else 1)).
Proof.
  intros Hf _. split.
  - intros w s Hc Hs. unfold get_dim_degree, nthR. rewrite Hc. cbn [bindR].
    rewrite decide_True by done. rewrite Hf, Hs. done.
  - intros w n l Hc Hs Hn Hl Hrange. unfold get_dim_degree, nthR. rewrite Hc. cbn [bindR].
    rewrite decide_False by done. rewrite decide_True by done.
    rewrite Hl. cbn [bindR label_plus]. rewrite Hf, Hs. cbn [bindR]. f_equal.
    assert (Hup : bool_decide (LInt (l + 1) ∈ (list_to_set (LInt <$> seqZ 1 n) : gset Label))
                  = bool_decide (l + 1 < 1 + n)).
    { apply bool_decide_ext. rewrite LInt_in_range. lia. }
    assert (Hdown : bool_decide (LInt (l + -1) ∈ (list_to_set (LInt <$> seqZ 1 n) : gset Label))
                    = bool_decide (1 <= l + -1)).
    { apply bool_decide_ext. rewrite LInt_in_range. lia. }
    rewrite Hup, Hdown. unfold bool_to_Z.
    repeat case_bool_decide; case_decide; lia.
Qed.

Lemma coupling_degree_fully_interconnected_witness :
  let m := init [Policy "categorical" 1; Policy "ordinal" 1] false 0 true in
  let m' := fst (add_node (LInt 3) 2 (fst (add_node (LInt 2) 2 (fst (add_node (LInt 1) 2
              (fst (add_node (LStr "x") 1 m))))))) in
  get_dim_degree m' [LStr "a"; LStr "x"; LInt 2] 1 = inr 0 /\
  get_dim_degree m' [LStr "a"; LStr "x"; LInt 2] 2 = inr 2.
Proof.
  intros m m'. destruct (coupling_degree_fully_interconnected m' [LStr "a"; LStr "x"; LInt 2] 1)
    as [Hcat _]; [reflexivity | lia |].
  destruct (coupling_degree_fully_interconnected m' [LStr "a"; LStr "x"; LInt 2] 2)
    as [_ Hord]; [reflexivity | lia |].
  split.
  - rewrite (Hcat 1 {[LStr "x"]}); [reflexivity | reflexivity | vm_compute; reflexivity].
  - rewrite (Hord 1 3 2); [reflexivity | reflexivity | vm_compute; reflexivity | lia
                          | reflexivity | lia].
Defined.

(** Claim C8, counterexample: with an ordinal coupling and string layer
    labels, [_get_link] on a coupling link does not return noEdge: the
    test [link[2*k]+1 == link[2*k+1]] raises a TypeError. *)
Lemma ordinal_coupling_string_labels :
  let m := fst (add_node (LStr "a") 0 (init [Policy "ordinal" 1] false 0 true)) in
  mx_reachable m /\
  get_link m [LStr "a"; LStr "a"; LStr "x"; LStr "y"] = inl TypeError.
Proof.
  intros m. split.
  - apply mx_reach_add_node, mx_reach_init.
  - vm_compute. reflexivity.
Qed.

(** Claim C8, amended: take an ordinal coupling of weight [w] on aspect
    [k] and a link differing only in aspect [k], with the shared node in
    slice 0 and, when the store is not fully interconnected, present in
    both intra-layer stores.  When the two labels at aspect [k] are integers
    [s] and [r], [_get_link] returns [w] when [|s - r| = 1] and [noEdge]
    otherwise.  When either of them is a string, [_get_link] raises a
    TypeError ([link[2*k]+1] or [link[2*k+1]+1]). *)
Theorem ordinal_coupling_link m link k' w i s0 :
  couplings m !! k' = Some (Policy "ordinal" w) ->
  get_edge_inter_aspects (aspects m) link = inr [S k'] ->
  link !! 0%nat = Some i -> link !! 1%nat = Some i ->
  slices m !! 0%nat = Some s0 -> i ∈ s0 ->
  (fullyInterconnected m = false ->
   exists n1 n2 g1 g2 t1 t2,
     link_to_nodes link = inr (n1, n2) /\
     A m !! tail n1 = Some g1 /\ ML.slices g1 !! 0%nat = Some t1 /\ i ∈ t1 /\
     A m !! tail n2 = Some g2 /\ ML.slices g2 !! 0%nat = Some t2 /\ i ∈ t2) ->
  (forall s r,
     link !! (2 * S k')%nat = Some (LInt s) ->
     link !! (2 * S k' + 1)%nat = Some (LInt r) ->
     get_link m link = inr (if decide (Z.abs (s - r) = 1) then w else noEdge m)) /\
  (forall s r,
     link !! (2 * S k')%nat = Some s ->
     link !! (2 * S k' + 1)%nat = Some r ->
     (exists x, s = LStr x) \/ (exists y, r = LStr y) ->
     get_link m link = inl TypeError).
Proof.
  intros Hc HD Hi Hj Hs0 Hin Hp.
  unfold get_link. rewrite HD. cbn [bindR]. unfold nthR.
  rewrite Hi. cbn [bindR]. rewrite Hj. cbn [bindR].
  rewrite decide_True by done. rewrite Hs0. cbn [bindR].
  rewrite decide_False by naive_solver.
  destruct (fullyInterconnected m) eqn:Ef; cbn [bindR];
    [|destruct (Hp eq_refl) as (n1 & n2 & g1 & g2 & t1 & t2 & Hl & Hg1 & Ht1 & Hi1 & Hg2 & Ht2 & Hi2);
      rewrite Hl; cbn [bindR fst snd]; unfold lookupR;
      rewrite Hg1; cbn [bindR]; rewrite Ht1; cbn [bindR]; rewrite decide_True by done;
      rewrite Hg2; cbn [bindR]; rewrite Ht2; cbn [bindR];
      rewrite (bool_decide_eq_true_2 _ Hi2); cbn [bindR]].
  all: rewrite Hc; cbn [bindR]; split.
  1,3: intros s r Hs Hr; rewrite Hs; cbn [bindR]; rewrite Hr; cbn [bindR];
    unfold coupling_link; rewrite decide_False by done; rewrite decide_True by done;
    unfold label_plus; cbn [bindR];
    (destruct (decide (s + 1 = r)) as [<-|H1];
      [rewrite decide_True by done; rewrite decide_True by lia; done|]);
    rewrite decide_False by congruence;
    (destruct (decide (s = r + 1)) as [->|H2];
      [rewrite decide_True by done; rewrite decide_True by lia; done|]);
    rewrite decide_False by congruence; rewrite decide_False by lia; done.
  all: intros s r Hs Hr Hstr; rewrite Hs; cbn [bindR]; rewrite Hr; cbn [bindR];
    unfold coupling_link; rewrite decide_False by done; rewrite decide_True by done;
    (destruct Hstr as [[x ->]|[y ->]]; [done|]);
    destruct s as [a|x]; cbn [label_plus bindR]; [|done];
    rewrite decide_False by congruence; done.
Qed.

Lemma ordinal_coupling_link_witness :
  let m := fst (add_node (LStr "a") 0 (init [Policy "ordinal" 3] false 0 true)) in
  get_link m [LStr "a"; LStr "a"; LInt 4; LInt 5] = inr 3 /\
  get_link m [LStr "a"; LStr "a"; LInt 4; LInt 6] = inr 0 /\
  get_link m [LStr "a"; LStr "a"; LInt 4; LStr "y"] = inl TypeError.
Proof.
  intros m. split; [|split].
  - refine (proj1 (ordinal_coupling_link m [LStr "a"; LStr "a"; LInt 4; LInt 5] 0 3 (LStr "a")
             {[LStr "a"]} _ _ _ _ _ _ _) 4 5 _ _).
    all: first [vm_compute; reflexivity | set_solver | intros; discriminate].
  - refine (proj1 (ordinal_coupling_link m [LStr "a"; LStr "a"; LInt 4; LInt 6] 0 3 (LStr "a")
             {[LStr "a"]} _ _ _ _ _ _ _) 4 6 _ _).
    all: first [vm_compute; reflexivity | set_solver | intros; discriminate].
  - refine (proj2 (ordinal_coupling_link m [LStr "a"; LStr "a"; LInt 4; LStr "y"] 0 3 (LStr "a")
             {[LStr "a"]} _ _ _ _ _ _ _) (LInt 4) (LStr "y") _ _ _).
    all: first [vm_compute; reflexivity | set_solver | intros; discriminate
               | right; eexists; reflexivity].
Defined.

(** Claim C9, failing input: in an undirected multiplex store that is not
    fully interconnected, with two categorical couplings, [_iter_dim] yields
    every other layer combination of the node for each coupled aspect, so
    the coupling neighbour [(a,x,p)] of [(a,y,p)] is produced once per
    aspect and [edges] yields the link [(a,a,y,x,p,p)] twice (and
    [(b,b,y,x,p,p)] twice). *)
Theorem edges_repeats_coupling_edge :
  let m := fst (setitem [LStr "a"; LStr "b"; LStr "y"; LStr "y"; LStr "p"; LStr "p"] 1
               (fst (setitem [LStr "a"; LStr "b"; LStr "x"; LStr "x"; LStr "p"; LStr "p"] 1
                     (init [Policy "categorical" 1; Policy "categorical" 1] false 0 false)))) in
  directed m = false /\
  edges m = inr
    [([LStr "a"; LStr "b"; LStr "y"; LStr "y"; LStr "p"; LStr "p"], 1);
     ([LStr "a"; LStr "a"; LStr "y"; LStr "x"; LStr "p"; LStr "p"], 1);
     ([LStr "a"; LStr "a"; LStr "y"; LStr "x"; LStr "p"; LStr "p"], 1);
     ([LStr "a"; LStr "b"; LStr "x"; LStr "x"; LStr "p"; LStr "p"], 1);
     ([LStr "b"; LStr "b"; LStr "y"; LStr "x"; LStr "p"; LStr "p"], 1);
     ([LStr "b"; LStr "b"; LStr "y"; LStr "x"; LStr "p"; LStr "p"], 1)].
Proof. vm_compute. split; reflexivity. Qed.

(** Claim C10: in a fully interconnected multiplex store with a
    categorical coupling of weight [w] on aspect [k], [_get_link] on a link
    differing only in aspect [k] returns [w] whenever the shared node is in
    slice 0, whether or not its two labels at [k] are registered in slice
    [k]. *)
Theorem categorical_coupling_any_layers m link k' w i s0 :
  fullyInterconnected m = true ->
  couplings m !! k' = Some (Policy "categorical" w) ->
  get_edge_inter_aspects (aspects m) link = inr [S k'] ->
  link !! 0%nat = Some i -> link !! 1%nat = Some i ->
  slices m !! 0%nat = Some s0 -> i ∈ s0 ->
  get_link m link = inr w.
Proof.
  intros Hf Hc HD Hi Hj Hs0 Hin.
  destruct (proj1 (inter_aspects_spec _ _ _ HD (S k')) ltac:(by left))
    as (_ & s & r & Hs & Hr & _).
  unfold get_link. rewrite HD. cbn [bindR]. unfold nthR.
  rewrite Hi, Hj, Hs0, Hf, Hc, Hs, Hr. cbn [bindR].
  repeat (case_decide; try naive_solver).
Qed.

Lemma categorical_coupling_any_layers_witness :
  let m := fst (add_node (LStr "a") 0 (init [Policy "categorical" 7] false 0 true)) in
  let link := [LStr "a"; LStr "a"; LStr "x"; LStr "y"] in
  slices m !! 1%nat = Some ∅ /\ get_link m link = inr 7.
Proof.
  intros m link. split; [reflexivity|].
  apply (categorical_coupling_any_layers m link 0 7 (LStr "a") {[LStr "a"]}).
  all: first [vm_compute; reflexivity | set_solver].
Defined.

End Claims.

Module Extra.
Module ML := MultilayerNetwork.
Module MX := MultiplexNetwork.

(** [_nodes_to_link] and [_link_to_nodes] are inverse: two non-empty node
    tuples of one length come back from the link they interleave into, and a
    link of [2*(k+1)] labels is rebuilt from the two nodes it splits into. *)
Theorem link_nodes_roundtrip (n1 n2 link : list Label) (k : nat) :
  (length n1 = length n2 -> n1 <> [] ->
     (let? l := nodes_to_link n1 n2 in link_to_nodes l) = inr (n1, n2)) /\
  (length link = (2 * S k)%nat ->
     (let? p := link_to_nodes link in nodes_to_link p.1 p.2) = inr link).
Proof.
  split.
  - intros Hl Hne. destruct n1 as [|a t1]; [done|]. destruct n2 as [|b t2]; [done|].
    unfold nodes_to_link. rewrite decide_True by done. cbn [interleave bindR link_to_nodes].
    destruct (evens_interleave t1 t2) as [E1 E2]; [simpl in Hl; lia|]. by rewrite E1, E2.
  - intros Hl. destruct link as [|i [|j rest]]; simpl in Hl; try lia.
    cbn [link_to_nodes bindR fst snd]. unfold nodes_to_link.
    destruct (length_evens_even k rest) as [E1 E2]; [lia|].
    rewrite decide_True by (simpl; lia). cbn [interleave].
    by rewrite (interleave_evens k rest) by lia.
Qed.

Lemma link_nodes_roundtrip_witness :
  (let? l := nodes_to_link [LStr "a"; LInt 1] [LStr "b"; LInt 2] in link_to_nodes l)
    = inr ([LStr "a"; LInt 1], [LStr "b"; LInt 2]) /\
  (let? p := link_to_nodes [LStr "a"; LStr "b"; LInt 1; LInt 2] in nodes_to_link p.1 p.2)
    = inr [LStr "a"; LStr "b"; LInt 1; LInt 2].
Proof.
  destruct (link_nodes_roundtrip [LStr "a"; LInt 1] [LStr "b"; LInt 2]
              [LStr "a"; LStr "b"; LInt 1; LInt 2] 1) as [H1 H2].
  split; [apply H1; [reflexivity | discriminate] | apply H2; reflexivity].
Defined.

(** [_iter_neighbors] yields each neighbour once; it yields exactly the
    stored neighbours whose labels match every fixed entry of [dims]; and
    [_get_degree] is the number of neighbours it yields. *)
Theorem ml_iter_neighbors_filter (g : ML.t) node dims ns :
  ML.iter_neighbors g node dims = inr ns ->
  NoDup ns /\
  (forall n, n ∈ ns <->
     is_Some (lookup2 (ML.net g) node n) /\
     forall ds i v, dims = Some ds -> ds !! i = Some (Some v) -> n !! i = Some v) /\
  ML.get_degree g node dims = inr (Z.of_nat (length ns)).
Proof.
  unfold ML.iter_neighbors, ML.get_degree, lookup2.
  destruct (ML.net g !! node) as [r|] eqn:Er; cbn [mbind option_bind].
  - assert (Hnd : NoDup (map fst (map_to_list r)))
      by (rewrite map_fmap_eq; apply NoDup_fst_map_to_list).
    assert (Hin : forall n, n ∈ map fst (map_to_list r) <-> is_Some (r !! n)).
    { intros n. rewrite map_fmap_eq, list_elem_of_fmap. split.
      - intros ([k x] & -> & Hk). apply elem_of_map_to_list in Hk. by eexists.
      - intros [x Hx]. exists (n, x). split; [done|]. by apply elem_of_map_to_list. }
    destruct dims as [ds|].
    + intros Hf. destruct (filterR_spec _ _ _ Hf) as [Hm Hn].
      split; [by apply Hn|]. split.
      * intros n. rewrite Hm, Hin. split.
        -- intros [Hs Hp]. split; [done|]. intros ds' i v [= <-] Hi.
           by apply (dims_match_spec ds n true Hp).
        -- intros [Hs Hp]. split; [done|].
           destruct (ML.dims_match ds n) as [e|b] eqn:Eb.
           ++ exfalso. (* the filter succeeded on every stored neighbour *)
              assert (Hx : n ∈ map fst (map_to_list r)) by (by apply Hin).
              clear -Hf Hx Eb. revert ns Hf. induction (map fst (map_to_list r)) as [|y l IH];
                intros ns Hf; [by apply elem_of_nil in Hx|].
              simpl in Hf. apply elem_of_cons in Hx as [->|Hx].
              ** by rewrite Eb in Hf.
              ** destruct (ML.dims_match ds y); [done|]. cbn [bindR] in Hf.
                 destruct (filterR _ l) as [e'|ys] eqn:El; [done|]. by apply (IH Hx ys).
           ++ f_equal. apply (dims_match_spec ds n b Eb). intros i v Hi. by apply (Hp ds).
      * unfold ML.iter_neighbors. rewrite Er. cbv zeta. rewrite Hf. done.
    + intros [= <-]. split; [done|]. split.
      * intros n. rewrite Hin. split; [intros Hs; split; [done|]; by intros ds|]. by intros [? _].
      * cbn [bindR]. rewrite length_map, length_map_to_list. done.
  - intros Hns. destruct dims; injection Hns as <-; (split; [constructor|]); split.
    + intros n. split; [intros Hn; by apply elem_of_nil in Hn|]. intros [[? Hx] _]. simpl in Hx. discriminate.
    + try (unfold ML.iter_neighbors; rewrite Er); done.
    + intros n. split; [intros Hn; by apply elem_of_nil in Hn|]. intros [[? Hx] _]. simpl in Hx. discriminate.
    + try (unfold ML.iter_neighbors; rewrite Er); done.
Qed.

Lemma ml_iter_neighbors_filter_witness :
  let g := fst (ML.setitem [LStr "a"; LStr "c"; LInt 1; LInt 1] 4
               (fst (ML.setitem [LStr "a"; LStr "b"; LInt 1; LInt 2] 5 (ML.init 1 0 false)))) in
  NoDup [[LStr "b"; LInt 2]] /\
  (forall n, n ∈ [[LStr "b"; LInt 2]] <->
     is_Some (lookup2 (ML.net g) [LStr "a"; LInt 1] n) /\
     forall ds i v, Some [None; Some (LInt 2)] = Some ds -> ds !! i = Some (Some v) -> n !! i = Some v) /\
  ML.get_degree g [LStr "a"; LInt 1] (Some [None; Some (LInt 2)]) = inr 1.
Proof.
  intros g. apply ml_iter_neighbors_filter. vm_compute. reflexivity.
Defined.

(** [MultilayerNetwork.__setitem__] then [__getitem__]: on a store built by
    [__init__], [add_node] and [__setitem__], after [net[item] = w] with a
    full link or a short link, [net[item]] returns [w], whatever [w] is
    ([noEdge] included). *)
Theorem ml_setitem_getitem (g : ML.t) item w :
  Reach.ml_reachable g ->
  (length item = (2 * S (ML.aspects g))%nat \/ length item = (S (ML.aspects g) + 1)%nat) ->
  getitem (fst (ML.setitem item w g)) item = inr (GWeight w).
Proof.
  intros Hr Hit.
  destruct (MLMore.setitem_valid g item w (MLMore.ml_reach_Ok g Hr) Hit)
    as (link & g1 & Hlen & _ & _ & Hh & -> & Hok & Ha & Hn & Hd & He).
  destruct (MLFacts.set_link_fields link w g1) as (Ea & _ & Ee & _).
  destruct (Hh (fst (ML.set_link link w g1))) as [-> | C]; [|congruence].
  rewrite (getitem_link (T:=ML.t)) by (simpl; lia).
  destruct (MLMore.link_to_nodes_len link (ML.aspects g) Hlen) as (n1 & n2 & Ht & _).
  cbn [n_get_link MultilayerNetwork_Net].
  rewrite (ml_get_link_lookup2 _ link n1 n2 Ht), (MLMore.set_link_lookup_self link w g1 n1 n2 Ht).
  case_decide as Hw; simpl; [by rewrite Ee, Hw|done].
Qed.

Lemma ml_setitem_getitem_witness :
  getitem (fst (ML.setitem [LStr "a"; LStr "b"; LInt 1] 3 (ML.init 1 0 false)))
          [LStr "a"; LStr "b"; LInt 1] = inr (GWeight 3) /\
  getitem (fst (ML.setitem [LStr "a"; LStr "a"; LInt 1; LInt 1] 0 (ML.init 1 0 false)))
          [LStr "a"; LStr "a"; LInt 1; LInt 1] = inr (GWeight 0).
Proof.
  split.
  - apply ml_setitem_getitem; [apply Reach.ml_reach_init | simpl; lia].
  - apply ml_setitem_getitem; [apply Reach.ml_reach_init | simpl; lia].
Defined.

(** [net[item] = w] with a full link [item] joining [n1] to [n2] changes no
    other link: every link whose node pair is neither [(n1, n2)] nor, in an
    undirected store, [(n2, n1)] keeps its weight. *)
Theorem ml_setitem_frame (g : ML.t) item w l n1 n2 u v :
  Reach.ml_reachable g -> length item = (2 * S (ML.aspects g))%nat ->
  link_to_nodes item = inr (n1, n2) -> link_to_nodes l = inr (u, v) ->
  (u, v) <> (n1, n2) -> (ML.directed g = true \/ (u, v) <> (n2, n1)) ->
  ML.get_link (fst (ML.setitem item w g)) l = ML.get_link g l.
Proof.
  intros Hr Hlen Hi Hl H1 H2.
  destruct (MLMore.setitem_valid g item w (MLMore.ml_reach_Ok g Hr) (or_introl Hlen))
    as (link & g1 & _ & Hli & _ & _ & -> & Hok & Ha & Hn & Hd & He).
  rewrite (Hli Hlen).
  destruct (MLFacts.set_link_fields item w g1) as (_ & _ & Ee & _).
  rewrite !(ml_get_link_lookup2 _ l u v Hl).
  rewrite (MLMore.set_link_frame item w g1 n1 n2 u v Hi H1) by congruence.
  by rewrite Ee, Hn, He.
Qed.

Lemma ml_setitem_frame_witness :
  let g := fst (ML.setitem [LStr "a"; LStr "b"] 1 (ML.init 0 0 true)) in
  ML.get_link (fst (ML.setitem [LStr "b"; LStr "a"] 2 g)) [LStr "a"; LStr "b"] = inr 1.
Proof.
  intros g.
  rewrite (ml_setitem_frame g [LStr "b"; LStr "a"] 2 [LStr "a"; LStr "b"]
             [LStr "b"] [LStr "a"] [LStr "a"] [LStr "b"]).
  - vm_compute. reflexivity.
  - apply Reach.ml_reach_setitem, Reach.ml_reach_init.
  - reflexivity.
  - reflexivity.
  - reflexivity.
  - intros [=].
  - left. reflexivity.
Defined.

(** [edges] of a store built by [__init__], [add_node] and [__setitem__]
    lists only stored links: each pair [(link, w)] it yields has a weight
    other than [noEdge], equal to [net[link]], and [w] is the entry
    [_net[node1][node2]] of the link's two nodes. *)
Theorem ml_edges_stored (g : ML.t) es l w :
  Reach.ml_reachable g -> ML.edges g = inr es -> In (l, w) es ->
  w <> ML.noEdge g /\ ML.get_link g l = inr w /\
  exists u v, link_to_nodes l = inr (u, v) /\ lookup2 (ML.net g) u v = Some w.
Proof.
  intros Hr He Hin.
  destruct (MLMore.edges_stored g es (l, w) (MLMore.ml_reach_Ok g Hr) He Hin)
    as (u & v & Ht & Hl & Hw & Hg).
  split; [done|]. split; [done|]. by exists u, v.
Qed.

Lemma ml_edges_stored_witness :
  let g := fst (ML.setitem [LStr "a"; LStr "b"; LInt 1; LInt 2] 7 (ML.init 1 0 true)) in
  ML.edges g = inr [([LStr "a"; LStr "b"; LInt 1; LInt 2], 7)] /\
  (7 <> ML.noEdge g /\ ML.get_link g [LStr "a"; LStr "b"; LInt 1; LInt 2] = inr 7 /\
   exists u v, link_to_nodes [LStr "a"; LStr "b"; LInt 1; LInt 2] = inr (u, v) /\
               lookup2 (ML.net g) u v = Some 7).
Proof.
  intros g. assert (E : ML.edges g = inr [([LStr "a"; LStr "b"; LInt 1; LInt 2], 7)])
    by (vm_compute; reflexivity).
  split; [done|].
  apply (ml_edges_stored g [([LStr "a"; LStr "b"; LInt 1; LInt 2], 7)]
           [LStr "a"; LStr "b"; LInt 1; LInt 2] 7).
  - apply Reach.ml_reach_setitem, Reach.ml_reach_init.
  - exact E.
  - left. reflexivity.
Defined.

(** Removing a link: after [net[item] = noEdge] with a full link [item]
    joining [n1] to [n2], [edges] lists no link between [n1] and [n2], and in
    an undirected store none between [n2] and [n1] either. *)
Theorem ml_setitem_noEdge_removes (g : ML.t) item n1 n2 es l w :
  Reach.ml_reachable g -> length item = (2 * S (ML.aspects g))%nat ->
  link_to_nodes item = inr (n1, n2) ->
  ML.edges (fst (ML.setitem item (ML.noEdge g) g)) = inr es -> In (l, w) es ->
  link_to_nodes l <> inr (n1, n2) /\
  (ML.directed g = false -> link_to_nodes l <> inr (n2, n1)).
Proof.
  intros Hr Hlen Hi He Hin.
  assert (Hr' := Reach.ml_reach_setitem g item (ML.noEdge g) Hr).
  destruct (MLMore.edges_stored _ es (l, w) (MLMore.ml_reach_Ok _ Hr') He Hin)
    as (u & v & Ht & Hl & _ & _). simpl in Ht, Hl.
  destruct (MLMore.setitem_valid g item (ML.noEdge g) (MLMore.ml_reach_Ok g Hr) (or_introl Hlen))
    as (link & g1 & _ & Hli & _ & _ & Hs & Hok & Ha & Hn & Hd & He1).
  rewrite (Hli Hlen) in Hs.
  assert (Hnone : lookup2 (ML.net (fst (ML.setitem item (ML.noEdge g) g))) n1 n2 = None).
  { rewrite Hs, (MLMore.set_link_lookup_self item _ g1 n1 n2 Hi).
    by rewrite decide_True by congruence. }
  split.
  - rewrite Ht. intros [= -> ->]. congruence.
  - intros Hdir. rewrite Ht. intros [= -> ->].
    pose proof (MLReach.reachable_sym _ Hr') as Hsym.
    destruct (MLFacts.set_link_fields item (ML.noEdge g) g1) as (_ & Ed & _).
    rewrite Hs in Hsym, Hl, Hnone. rewrite Hsym in Hl; [congruence|].
    rewrite Ed. congruence.
Qed.

Lemma ml_setitem_noEdge_removes_witness :
  let g := fst (ML.setitem [LStr "a"; LStr "c"] 5
                  (fst (ML.setitem [LStr "a"; LStr "b"] 4 (ML.init 0 0 false)))) in
  ML.edges g = inr [([LStr "c"; LStr "a"], 5); ([LStr "a"; LStr "b"], 4)] /\
  ML.edges (fst (ML.setitem [LStr "b"; LStr "a"] 0 g)) = inr [([LStr "c"; LStr "a"], 5)] /\
  (link_to_nodes [LStr "c"; LStr "a"] <> inr ([LStr "b"], [LStr "a"]) /\
   (ML.directed g = false -> link_to_nodes [LStr "c"; LStr "a"] <> inr ([LStr "a"], [LStr "b"]))).
Proof.
  intros g. split; [vm_compute; reflexivity|]. split; [vm_compute; reflexivity|].
  apply (ml_setitem_noEdge_removes g [LStr "b"; LStr "a"] [LStr "b"] [LStr "a"]
           [([LStr "c"; LStr "a"], 5)] [LStr "c"; LStr "a"] 5).
  - apply Reach.ml_reach_setitem, Reach.ml_reach_setitem, Reach.ml_reach_init.
  - reflexivity.
  - reflexivity.
  - vm_compute. reflexivity.
  - left. reflexivity.
Defined.

(** In an undirected store, removing a self-loop [net[item] = noEdge]
    ([item] joins a node to itself) raises the [KeyError] of the second
    [del self._net[node2][node1]], after the first [del] has removed the
    entry: the link then reads as [noEdge]. *)
Theorem ml_undirected_self_loop_removal (g : ML.t) item x :
  Reach.ml_reachable g -> ML.directed g = false ->
  length item = (2 * S (ML.aspects g))%nat ->
  (forall k, item !! (2 * k)%nat = item !! (2 * k + 1)%nat) ->
  ML.get_link g item = inr x -> x <> ML.noEdge g ->
  snd (ML.setitem item (ML.noEdge g) g) = inl (KeyError "missing") /\
  ML.get_link (fst (ML.setitem item (ML.noEdge g) g)) item = inr (ML.noEdge g).
Proof.
  intros Hr Hd Hlen Hself Hx Hne.
  destruct (MLMore.setitem_valid g item (ML.noEdge g) (MLMore.ml_reach_Ok g Hr) (or_introl Hlen))
    as (link & g1 & _ & Hli & _ & _ & Hs & Hok & Ha & Hn & Hd1 & He1).
  rewrite (Hli Hlen) in Hs. rewrite Hs.
  destruct (MLMore.link_to_nodes_len item (ML.aspects g) Hlen) as (n1 & n2 & Ht & _).
  pose proof (MLMore.self_loop_nodes item n1 n2 Hself Ht) as <-.
  rewrite (ml_get_link_lookup2 _ item n1 n1 Ht) in Hx.
  destruct (lookup2 (ML.net g) n1 n1) as [y|] eqn:Hy; simpl in Hx; [|congruence].
  injection Hx as ->.
  split.
  - unfold ML.set_link. rewrite Ht, decide_True by congruence.
    rewrite Hn. unfold lookup2 in Hy.
    destruct (ML.net g !! n1) as [m1|] eqn:E1; [|done]. simpl in Hy. rewrite Hy.
    rewrite Hd1, Hd, lookup_insert_eq, lookup_delete_eq. done.
  - rewrite (ml_get_link_lookup2 _ item n1 n1 Ht),
      (MLMore.set_link_lookup_self item _ g1 n1 n1 Ht).
    rewrite decide_True by congruence. simpl.
    destruct (MLFacts.set_link_fields item (ML.noEdge g) g1) as (_ & _ & Ee & _).
    congruence.
Qed.

Lemma ml_undirected_self_loop_removal_witness :
  let g := fst (ML.setitem [LStr "a"; LStr "a"] 1 (ML.init 0 0 false)) in
  snd (ML.setitem [LStr "a"; LStr "a"] 0 g) = inl (KeyError "missing") /\
  ML.get_link (fst (ML.setitem [LStr "a"; LStr "a"] 0 g)) [LStr "a"; LStr "a"] = inr 0.
Proof.
  intros g.
  apply (ml_undirected_self_loop_removal g [LStr "a"; LStr "a"] 1).
  - apply Reach.ml_reach_setitem, Reach.ml_reach_init.
  - reflexivity.
  - reflexivity.
  - intros [|[|k]]; [reflexivity|reflexivity|].
    rewrite !lookup_ge_None_2 by (simpl; lia). reflexivity.
  - vm_compute. reflexivity.
  - vm_compute. discriminate.
Defined.

(** [MultiplexNetwork.add_node]: on a store with at least one aspect built
    by [__init__], [add_node] and [__setitem__], a layer combination has its
    intra-layer store in [A] exactly when each of its labels is registered
    in the slice of its aspect. *)
Theorem mx_layers_complete (m : MX.t) key :
  Reach.mx_reachable m -> (1 <= MX.aspects m)%nat -> length key = MX.aspects m ->
  is_Some (MX.A m !! key) <->
  (forall a l, key !! a = Some l -> exists s, MX.slices m !! S a = Some s /\ l ∈ s).
Proof.
  intros Hr H1 Hlen. destruct (MXMore.mx_reach_Ok m Hr) as [Hm Hc]. split.
  - intros [g Hg] a l Hl. by apply (MXInv.inv_keys _ Hm key g Hg).
  - intros Hreg. by apply Hc.
Qed.

Lemma mx_layers_complete_witness :
  let m := fst (MX.add_node (LStr "y") 2
             (fst (MX.add_node (LStr "x") 1
               (MX.init [MX.Policy "categorical" 1; MX.Policy "ordinal" 1] false 0 true)))) in
  MX.A m = {[[LStr "x"; LStr "y"] := MX.new_intra]} /\
  (is_Some (MX.A m !! [LStr "x"; LStr "y"]) <->
   (forall a l, [LStr "x"; LStr "y"] !! a = Some l ->
      exists s, MX.slices m !! S a = Some s /\ l ∈ s)).
Proof.
  intros m. split; [vm_compute; reflexivity|].
  apply mx_layers_complete.
  - apply Reach.mx_reach_add_node, Reach.mx_reach_add_node, Reach.mx_reach_init.
  - vm_compute. lia.
  - reflexivity.
Defined.

(** [MultiplexNetwork.__setitem__] then [_get_link] on an intra-layer link:
    on a store with at least one aspect built by [__init__], [add_node] and
    [__setitem__], [net[link] = w] with a full link whose halves differ in
    aspect 0 only succeeds, and [net[link]] then returns [w], whatever [w]
    is. *)
Theorem mx_setitem_intra_roundtrip (m : MX.t) link w :
  Reach.mx_reachable m -> (1 <= MX.aspects m)%nat ->
  length link = (2 * S (MX.aspects m))%nat ->
  MX.get_edge_inter_aspects (MX.aspects m) link = inr [0%nat] ->
  snd (MX.setitem link w m) = inr tt /\ MX.get_link (fst (MX.setitem link w m)) link = inr w.
Proof.
  intros Hr H1 Hlen HD. destruct (MXMore.mx_reach_Ok m Hr) as [Hm Hc].
  destruct (MXMore.setitem_full m link w Hm Hlen) as (-> & Hm1 & Hext & Hmem).
  set (m1 := fst (forS (seq 0 (2 * S (MX.aspects m))) (MXInv.reg_body link) m)) in *.
  assert (Hc1 : MXOk.complete m1) by (apply (MXMore.mx_reg_loop_Ok link _ m (conj Hm Hc))).
  pose proof (MXInv.ext_aspects _ _ Hext) as Ha.
  set (key := evens (drop 2 link)).
  assert (Hk : is_Some (MX.A m1 !! key)).
  { apply Hc1; [lia|..].
    - unfold key. destruct (length_evens_even (MX.aspects m) (drop 2 link)) as [E _];
        [rewrite length_drop; lia|]. lia.
    - intros a l Hl. apply Hmem. right. exists (2 + 2 * a)%nat.
      unfold key in Hl. rewrite MXMore.lookup_evens, lookup_drop in Hl.
      assert (Hb : (2 + 2 * a < length link)%nat) by (by eapply lookup_lt_Some).
      split; [apply in_seq; lia|]. split; [|done].
      replace (2 + 2 * a)%nat with (2 * S a)%nat by lia.
      rewrite Nat.mul_comm, Nat.div_mul; lia. }
  destruct Hk as [g Hg].
  destruct (MXFacts.aspect0_nodes _ _ _ HD) as (i & j & Hi & Hj & Hij); [by left|].
  destruct (MXMore.intra_setitem_result key i j w m1 g Hm1 Hg Hij)
    as (g' & Hok & Ha' & Hg' & Hget).
  assert (E : MX.set_link link w m1 = MX.intra_setitem key i j w m1).
  { unfold MX.set_link, bindS, getS, liftS. rewrite Ha, HD.
    unfold lookupR, nthR. fold key. by rewrite Hg, Hi, Hj. }
  rewrite E. split; [done|].
  unfold MX.get_link. rewrite Ha', Ha, HD. cbn [bindR]. fold key. rewrite Hg'.
  unfold nthR. by rewrite Hi, Hj.
Qed.

Lemma mx_setitem_intra_roundtrip_witness :
  let m := MX.init [MX.Policy "categorical" 1] true 5 true in
  MX.get_link (fst (MX.setitem [LStr "a"; LStr "b"; LStr "x"; LStr "x"] 5 m))
              [LStr "a"; LStr "b"; LStr "x"; LStr "x"] = inr 5.
Proof.
  intros m.
  apply (mx_setitem_intra_roundtrip m [LStr "a"; LStr "b"; LStr "x"; LStr "x"] 5).
  - apply Reach.mx_reach_init.
  - vm_compute. lia.
  - reflexivity.
  - vm_compute. reflexivity.
Defined.

(** Links of one layer ([_set_link] writes them into an intra-layer store
    created by [_add_A] as an undirected aspect-0 store) are symmetric in
    every multiplex store built by [__init__], [add_node] and [__setitem__],
    also when the multiplex store was created with [directed=True]: a link
    whose halves differ in aspect 0 only weighs the same as its swap. *)
Theorem mx_intra_links_symmetric (m : MX.t) link :
  Reach.mx_reachable m -> length link = (2 * S (MX.aspects m))%nat ->
  MX.get_edge_inter_aspects (MX.aspects m) link = inr [0%nat] ->
  MX.get_link m (swap_pairs link) = MX.get_link m link.
Proof.
  intros Hr Hlen HD. pose proof (MXFacts.reachable_inv m Hr) as Hm.
  assert (E0 : swap_pairs link !! 0%nat = link !! 1%nat)
    by (apply (lookup_swap_pairs_even link 0); lia).
  assert (E1 : swap_pairs link !! 1%nat = link !! 0%nat)
    by (apply (lookup_swap_pairs_even link 0); lia).
  destruct (lookup_lt_is_Some_2 link 0) as [i Hi]; [lia|].
  destruct (lookup_lt_is_Some_2 link 1) as [j Hj]; [lia|].
  unfold MX.get_link. rewrite inter_aspects_swap by lia. rewrite HD. cbn [bindR].
  rewrite (layer_key_swap _ _ Hlen HD).
  destruct (MX.A m !! evens (drop 2 link)) as [g|] eqn:Hg; [|done].
  unfold nthR. rewrite E0, E1, Hi, Hj. cbn [bindR].
  destruct (MXInv.inv_intra _ Hm _ _ Hg) as (_ & _ & Hsym).
  rewrite (ml_get_link_lookup2 g [j; i] [j] [i] eq_refl).
  rewrite (ml_get_link_lookup2 g [i; j] [i] [j] eq_refl). by rewrite Hsym.
Qed.

Lemma mx_intra_links_symmetric_witness :
  let m := fst (MX.setitem [LStr "a"; LStr "b"; LStr "x"; LStr "x"] 3
                  (MX.init [MX.Policy "categorical" 1] true 0 true)) in
  MX.directed m = true /\
  MX.get_link m [LStr "b"; LStr "a"; LStr "x"; LStr "x"] = inr 3.
Proof.
  intros m. split; [reflexivity|].
  change [LStr "b"; LStr "a"; LStr "x"; LStr "x"]
    with (swap_pairs [LStr "a"; LStr "b"; LStr "x"; LStr "x"]).
  rewrite (mx_intra_links_symmetric m [LStr "a"; LStr "b"; LStr "x"; LStr "x"]).
  - vm_compute. reflexivity.
  - apply Reach.mx_reach_setitem, Reach.mx_reach_init.
  - reflexivity.
  - vm_compute. reflexivity.
Defined.

(** A multiplex store with no aspects ([couplings=None] or empty) can hold
    no link: [A] stays empty, every [net[item] = w] raises a [KeyError]
    ([_get_A_with_tuple(())] finds no intra-layer store, or the link is a
    self-link, or the item has the wrong length), and every link of at
    least two labels reads as [noEdge]. *)
Theorem mx_no_aspects (m : MX.t) :
  Reach.mx_reachable m -> MX.aspects m = 0%nat ->
  MX.A m = ∅ /\
  (forall item w, exists msg, snd (MX.setitem item w m) = inl (KeyError msg)) /\
  (forall link, (2 <= length link)%nat -> MX.get_link m link = inr (MX.noEdge m)).
Proof.
  intros Hr H0. destruct (MXMore.reach_EmptyA m Hr) as [Hm HA].
  specialize (HA H0). split; [done|]. split.
  - intros item w.
    destruct (decide (length item = 2 * S (MX.aspects m))%nat) as [Hl|Hl].
    + destruct (MXMore.setitem_full m item w Hm Hl) as (-> & _ & Hext & _).
      set (m1 := fst (forS _ (MXInv.reg_body item) m)) in *.
      destruct (MXMore.reg_loop_EmptyA item (seq 0 (2 * S (MX.aspects m))) m (conj Hm (fun _ => HA)))
        as [_ HA1].
      fold m1 in HA1. pose proof (MXInv.ext_aspects _ _ Hext) as Ha.
      specialize (HA1 ltac:(congruence)).
      rewrite H0 in Hl. destruct item as [|i [|j []]]; simpl in Hl; try lia.
      unfold MX.set_link, bindS, getS, liftS, MX.get_edge_inter_aspects.
      rewrite Ha, H0. cbn. case_bool_decide; cbn.
      * unfold lookupR. rewrite HA1, lookup_empty. by eexists.
      * by eexists.
    + exists "Invalid number of indices.".
      unfold MX.setitem, bindS, getS, liftS. cbv zeta.
      rewrite decide_False by done. rewrite decide_False by (rewrite H0 in Hl |- *; lia).
      done.
  - intros link Hl. destruct link as [|i [|j rest]]; simpl in Hl; try lia.
    unfold MX.get_link, MX.get_edge_inter_aspects. rewrite H0. cbn.
    case_bool_decide; cbn; [|done].
    by rewrite HA, lookup_empty.
Qed.

Lemma mx_no_aspects_witness :
  let m := fst (MX.setitem [LStr "a"; LStr "b"] 1 (MX.init [] false 0 true)) in
  MX.A m = ∅ /\
  (exists msg, snd (MX.setitem [LStr "a"; LStr "b"] 1 m) = inl (KeyError msg)) /\
  MX.get_link m [LStr "a"; LStr "b"] = inr 0.
Proof.
  intros m.
  assert (Hr : Reach.mx_reachable m)
    by apply Reach.mx_reach_setitem, Reach.mx_reach_init.
  destruct (mx_no_aspects m Hr eq_refl) as (H1 & H2 & H3).
  split; [exact H1|]. split; [apply H2|]. apply H3. simpl. lia.
Defined.

(** [_select_dimensions] returns before yielding anything as soon as a fixed
    entry of [dims] differs from the node's label, even after wildcard
    entries it has already collected: the degree and the strength are then
    0 and there are no neighbours, whatever the store holds. *)
Theorem mx_dims_mismatch_empty (m : MX.t) node dims :
  (length dims <= length node)%nat ->
  (exists i v x, dims !! i = Some (Some v) /\ node !! i = Some x /\ x <> v) ->
  MX.get_degree m node (Some dims) = inr 0 /\
  MX.get_strength m node (Some dims) = inr 0 /\
  MX.iter_neighbors m node (Some dims) = inr [].
Proof.
  intros Hlen Hmis.
  assert (Hs : MX.select_dimensions m node (Some dims) = inr []).
  { unfold MX.select_dimensions. rewrite MXMore.select_go_mismatch; [done|lia|].
    destruct Hmis as (i & v & x & H1 & H2 & H3). by exists i, v, x. }
  unfold MX.get_degree, MX.get_strength, MX.iter_neighbors. rewrite Hs. done.
Qed.

Lemma mx_dims_mismatch_empty_witness :
  let m := fst (MX.setitem [LStr "a"; LStr "b"; LStr "x"; LStr "x"] 3
                  (MX.init [MX.Policy "categorical" 1] false 0 true)) in
  MX.get_degree m [LStr "a"; LStr "x"] (Some [None; Some (LStr "x")]) = inr 1 /\
  MX.get_degree m [LStr "a"; LStr "x"] (Some [None; Some (LStr "y")]) = inr 0 /\
  MX.get_strength m [LStr "a"; LStr "x"] (Some [None; Some (LStr "y")]) = inr 0 /\
  MX.iter_neighbors m [LStr "a"; LStr "x"] (Some [None; Some (LStr "y")]) = inr [].
Proof.
  intros m. split; [vm_compute; reflexivity|].
  apply mx_dims_mismatch_empty.
  - simpl. lia.
  - exists 1%nat, (LStr "y"), (LStr "x"). split; [reflexivity|]. split; [reflexivity|].
    discriminate.
Defined.

(** In a fully interconnected multiplex store, for a node whose label of
    every aspect [a >= 1] is in [slices[a]], [_get_degree] counts exactly
    the neighbours [_iter_neighbors] yields, with any [dims] and for
    categorical and ordinal couplings alike. *)
Theorem mx_full_degree_neighbors (m : MX.t) node dims k ns :
  MX.fullyInterconnected m = true ->
  (forall a s, (1 <= a)%nat -> MX.slices m !! a = Some s ->
     exists x, node !! a = Some x /\ x ∈ s) ->
  MX.get_degree m node dims = inr k ->
  MX.iter_neighbors m node dims = inr ns ->
  k = Z.of_nat (length ns).
Proof.
  intros Hfull Hreg Hk Hns. unfold MX.get_degree in Hk. unfold MX.iter_neighbors in Hns.
  destruct (MX.select_dimensions m node dims) as [e|ds]; [done|]. cbn [bindR] in Hk, Hns.
  destruct (mapR _ ds) as [e|ks] eqn:Eks in Hk; [done|]. cbn [bindR] in Hk.
  destruct (mapR _ ds) as [e|ps] eqn:Eps in Hns; [done|]. cbn [bindR] in Hns.
  injection Hk as <-. injection Hns as <-.
  refine (MXMore.sum_concat _ _ ds ks ps Eks Eps _).
  intros d kd pd _ Hkd Hpd. exact (MXMore.full_dim_count m node d kd pd Hfull Hreg Hkd Hpd).
Qed.

Lemma mx_full_degree_neighbors_witness :
  let m := fst (MX.add_node (LStr "y") 1
                  (fst (MX.setitem [LStr "a"; LStr "b"; LStr "x"; LStr "x"] 3
                          (MX.init [MX.Policy "categorical" 1] false 0 true)))) in
  MX.get_degree m [LStr "a"; LStr "x"] None = inr 2 /\
  exists ns, MX.iter_neighbors m [LStr "a"; LStr "x"] None = inr ns /\
             2 = Z.of_nat (length ns).
Proof.
  intros m. split; [vm_compute; reflexivity|].
  eexists. split; [vm_compute; reflexivity|].
  apply (mx_full_degree_neighbors m [LStr "a"; LStr "x"] None).
  - reflexivity.
  - intros a s Ha Hs. destruct a as [|[|a]]; [lia| |].
    + exists (LStr "x"). split; [reflexivity|].
      assert (Hb : match MX.slices m !! 1%nat with
                   | Some s' => bool_decide (LStr "x" ∈ s') | None => false end = true)
        by (vm_compute; reflexivity).
      rewrite Hs in Hb. by apply bool_decide_eq_true in Hb.
    + rewrite lookup_ge_None_2 in Hs; [done|].
      assert (Hl : length (MX.slices m) = 2%nat) by (vm_compute; reflexivity). lia.
  - vm_compute. reflexivity.
  - vm_compute. reflexivity.
Defined.

End Extra.
